(** * secure-role-guard: role registry and permission engine

    A shallow embedding of the role registry module (defineRoles) and of
    [src/core/permission-engine.ts] (canUser and friends), with the
    JavaScript behaviour the two files rely on written out: strings as
    sequences of UTF-16 code units, [String.prototype.split] and [trim],
    [Set], [for ... of], property reads and writes on a plain object
    (prototype chain included), and [TypeError] as an error result. The
    Express and Next.js adapters and the React bindings, which only call
    the engine, follow as modules of their own. *)

From Stdlib Require Import NArith ZArith Ascii Lia.
From stdpp Require Import base decidable option list gmap sets strings.

Open Scope N_scope.

(** ** JavaScript strings *)

(** A JavaScript string is a finite sequence of 16-bit code units; [===]
    on strings, [Set.prototype.has] and property keys all compare code unit
    by code unit. *)
Definition code_unit : Type := N.
Abbreviation jsstring := (list N).

(** An ASCII literal as a JavaScript string. *)
Definition str (s : string) : jsstring :=
  Ascii.N_of_ascii <$> String.list_ascii_of_string s.

Definition DOT : code_unit := 46.
Definition QUOTE : code_unit := 34.

(** [s.split(".")]: the pieces between separators; never empty
    ([split] of the empty string is a list holding one empty string). *)
Fixpoint split_on (sep : code_unit) (s : jsstring) : list jsstring :=
  match s with
  | [] => [[]]
  | c :: s' =>
      if N.eqb c sep then [] :: split_on sep s'
      else match split_on sep s' with
           | [] => [[c]]
           | piece :: pieces => (c :: piece) :: pieces
           end
  end.

(** WhiteSpace and LineTerminator of ECMA-262 (Unicode category Zs as of
    Unicode 6.3 and later): what [trim] strips from both ends. *)
Definition is_whitespace (c : code_unit) : bool :=
  (c =? 0x09) || (c =? 0x0A) || (c =? 0x0B) || (c =? 0x0C) || (c =? 0x0D)
  || (c =? 0x20) || (c =? 0xA0) || (c =? 0x1680)
  || ((0x2000 <=? c) && (c <=? 0x200A))
  || (c =? 0x2028) || (c =? 0x2029) || (c =? 0x202F) || (c =? 0x205F)
  || (c =? 0x3000) || (c =? 0xFEFF).

Fixpoint trim_start (s : jsstring) : jsstring :=
  match s with
  | [] => []
  | c :: s' => if is_whitespace c then trim_start s' else s
  end.

Definition trim_end (s : jsstring) : jsstring :=
  reverse (trim_start (reverse s)).

Definition trim (s : jsstring) : jsstring := trim_end (trim_start s).

(** Iterating a string yields its code points, a surrogate pair as one
    two-unit string. *)
Definition is_high_surrogate (c : code_unit) : bool :=
  (0xD800 <=? c) && (c <=? 0xDBFF).
Definition is_low_surrogate (c : code_unit) : bool :=
  (0xDC00 <=? c) && (c <=? 0xDFFF).

Fixpoint code_points (s : jsstring) : list jsstring :=
  match s with
  | [] => []
  | c :: s' =>
      match s' with
      | d :: s'' =>
          if is_high_surrogate c && is_low_surrogate d
          then [c; d] :: code_points s''
          else [c] :: code_points s'
      | [] => [[c]]
      end
  end.

(** Decimal rendering of an array index, for the index keys of an array. *)
Fixpoint digits_fuel (fuel : nat) (n : N) (acc : jsstring) : jsstring :=
  match fuel with
  | O => acc
  | S fuel' =>
      let acc' := (48 + n mod 10) :: acc in
      if n / 10 =? 0 then acc' else digits_fuel fuel' (n / 10) acc'
  end.

Definition index_key (n : N) : jsstring :=
  digits_fuel (S (N.to_nat (N.log2 n))) n [].

(** ** Values and errors *)

(** The values a property read on the registry's backing object can give. *)
Inductive value : Type :=
  | VUndefined
  | VNumber (n : N)
  | VString (s : jsstring)
  | VArray (elems : list jsstring)
  | VFunction (name : string)
  | VObject (name : string).

Global Instance value_eq_dec : EqDecision value.
Proof. solve_decision. Defined.

Inductive error : Type := TypeError.

Inductive result (A : Type) : Type :=
  | Ok (a : A)
  | Throw (e : error).
Arguments Ok {A} a.
Arguments Throw {A} e.

Global Instance result_ret : MRet result := fun A a => Ok a.
Global Instance result_bind : MBind result := fun A B f m =>
  match m with
  | Ok a => f a
  | Throw e => Throw e
  end.
Global Instance result_fmap : FMap result := fun A B f m =>
  match m with
  | Ok a => Ok (f a)
  | Throw e => Throw e
  end.

(** A computation that returns (does not throw). *)
Definition returns {A} (m : result A) : Prop := ∃ a, m = Ok a.

(** [for (const x of v)]: arrays and strings are iterable; functions,
    plain objects, numbers and [undefined] are not. *)
Definition iterate (v : value) : result (list jsstring) :=
  match v with
  | VArray elems => Ok elems
  | VString s => Ok (code_points s)
  | VUndefined | VNumber _ | VFunction _ | VObject _ => Throw TypeError
  end.

(** ** Core types ([src/core/types.ts]) *)

Record UserContext : Type := {
  userId : option jsstring;
  roles : option (list jsstring);
  permissions : option (list jsstring);
  meta : option (list (jsstring * value));
}.

(** [UserContext | null | undefined]. *)
Inductive nullable (A : Type) : Type :=
  | Null
  | Undefined
  | Present (a : A).
Arguments Null {A}.
Arguments Undefined {A}.
Arguments Present {A} a.

(** The registry interface. What [getPermissions] gives back is a runtime
    value: the declared type promises an array of strings. *)
Record RoleRegistry : Type := {
  getPermissions : jsstring -> value;
  hasRole : jsstring -> bool;
  getRoleNames : unit -> list jsstring;
}.

Record PermissionCheckResult : Type := {
  allowed : bool;
  reason : option jsstring;
}.

(** [RoleDefinition]: the own enumerable properties of the caller's object
    in [Object.keys] order; [None] is a key whose value is [undefined]. *)
Abbreviation RoleDefinition := (list (jsstring * option (list jsstring))).

(** ** Plain objects

    [frozenDefinitions] starts as the literal [{}]: an ordinary object whose
    prototype is [Object.prototype]. Its own properties hold the copied
    permission arrays, in insertion order. A write through the inherited
    [__proto__] accessor replaces the prototype instead of adding a
    property, so the prototype is part of the state. *)

Inductive prototype : Type :=
  | ObjectPrototype
  | FrozenArray (elems : list jsstring).

Record object : Type := {
  own : list (jsstring * list jsstring);
  proto : prototype;
}.

(** The function-valued properties of [Object.prototype]. *)
Definition OBJECT_PROTOTYPE_METHODS : list string :=
  ["constructor"; "__defineGetter__"; "__defineSetter__"; "hasOwnProperty";
   "__lookupGetter__"; "__lookupSetter__"; "isPrototypeOf";
   "propertyIsEnumerable"; "toString"; "valueOf"; "toLocaleString"]%string.

(** The function-valued properties of [Array.prototype] (ES2023). *)
Definition ARRAY_PROTOTYPE_METHODS : list string :=
  ["constructor"; "at"; "concat"; "copyWithin"; "fill"; "find"; "findIndex";
   "findLast"; "findLastIndex"; "lastIndexOf"; "pop"; "push"; "reverse";
   "shift"; "unshift"; "slice"; "sort"; "splice"; "includes"; "indexOf";
   "join"; "keys"; "entries"; "values"; "forEach"; "filter"; "flat";
   "flatMap"; "map"; "every"; "some"; "reduce"; "reduceRight";
   "toLocaleString"; "toString"; "toReversed"; "toSorted"; "toSpliced";
   "with"]%string.

Definition PROTO : jsstring := str "__proto__".
Definition LENGTH : jsstring := str "length".

Fixpoint own_get {A : Type} (props : list (jsstring * A)) (key : jsstring)
  : option A :=
  match props with
  | [] => None
  | (k, v) :: props' => if decide (k = key) then Some v else own_get props' key
  end.

Fixpoint own_put {A : Type} (props : list (jsstring * A)) (key : jsstring)
  (v : A) : list (jsstring * A) :=
  match props with
  | [] => [(key, v)]
  | (k, w) :: props' =>
      if decide (k = key) then (k, v) :: props'
      else (k, w) :: own_put props' key v
  end.

Definition has_own {A : Type} (props : list (jsstring * A)) (key : jsstring)
  : bool :=
  match own_get props key with Some _ => true | None => false end.

Definition builtin_method (owner : string) (names : list string)
  (key : jsstring) : option value :=
  (fun hit => VFunction (owner +:+ "." +:+ hit.2)) <$>
    list_find (fun name => str name = key) names.

(** The own properties of an array of strings: its elements under their
    index keys, and [length]. *)
Fixpoint array_element_from (i : N) (elems : list jsstring) (key : jsstring)
  : option jsstring :=
  match elems with
  | [] => None
  | e :: elems' =>
      if decide (index_key i = key) then Some e
      else array_element_from (N.succ i) elems' key
  end.

Definition array_own_get (elems : list jsstring) (key : jsstring)
  : option value :=
  if decide (key = LENGTH) then Some (VNumber (N.of_nat (length elems)))
  else VString <$> array_element_from 0 elems key.

(** A read that reaches [Object.prototype]. The [__proto__] getter answers
    with the prototype of the object the read started from. *)
Definition object_prototype_get (receiver_proto : prototype) (key : jsstring)
  : value :=
  if decide (key = PROTO) then
    match receiver_proto with
    | ObjectPrototype => VObject "Object.prototype"
    | FrozenArray elems => VArray elems
    end
  else default VUndefined
         (builtin_method "Object.prototype" OBJECT_PROTOTYPE_METHODS key).

(** [o[key]]: own property first, then the prototype chain. *)
Definition obj_get (o : object) (key : jsstring) : value :=
  match own_get (own o) key with
  | Some perms => VArray perms
  | None =>
      match proto o with
      | ObjectPrototype => object_prototype_get (proto o) key
      | FrozenArray elems =>
          match array_own_get elems key with
          | Some v => v
          | None =>
              match builtin_method "Array.prototype" ARRAY_PROTOTYPE_METHODS key with
              | Some f => f
              | None => object_prototype_get (proto o) key
              end
          end
      end
  end.

(** [o[key] = perms] in strict code, on an extensible object. An own
    property is overwritten; otherwise the chain decides: the [__proto__]
    setter swaps the prototype, a read-only inherited property (an element
    or the length of a frozen array) makes the write throw, and anything
    else adds an own property. *)
Definition obj_set (o : object) (key : jsstring) (perms : list jsstring)
  : result object :=
  if has_own (own o) key then
    Ok {| own := own_put (own o) key perms; proto := proto o |}
  else if decide (key = PROTO) then
    Ok {| own := own o; proto := FrozenArray perms |}
  else
    match proto o with
    | FrozenArray elems =>
        match array_own_get elems key with
        | Some _ => Throw TypeError
        | None => Ok {| own := own_put (own o) key perms; proto := proto o |}
        end
    | ObjectPrototype =>
        Ok {| own := own_put (own o) key perms; proto := proto o |}
    end.

(** ** Role registry (defineRoles, createEmptyRegistry) *)

(** The loop of [defineRoles] over [Object.keys(definitions)]; every
    [role] it meets is an own key, so [definitions[role]] is the own
    property. *)
Fixpoint defineRoles_loop (definitions : RoleDefinition)
  (keys : list jsstring) (frozenDefinitions : object) : result object :=
  match keys with
  | [] => Ok frozenDefinitions
  | role :: keys' =>
      match mjoin (own_get definitions role) with
      | Some permissions =>
          frozenDefinitions' ← obj_set frozenDefinitions role permissions;
          defineRoles_loop definitions keys' frozenDefinitions'
      | None => defineRoles_loop definitions keys' frozenDefinitions
      end
  end.

(** The three closures over [frozenDefinitions]. *)
Definition registry_of (frozenDefinitions : object) : RoleRegistry := {|
  getPermissions role :=
    let permissions := obj_get frozenDefinitions role in
    if decide (permissions = VUndefined) then VArray [] else permissions;
  hasRole role := has_own (own frozenDefinitions) role;
  getRoleNames _ := (own frozenDefinitions).*1;
|}.

Definition defineRoles (definitions : RoleDefinition) : result RoleRegistry :=
  frozenDefinitions ←
    defineRoles_loop definitions definitions.*1
      {| own := []; proto := ObjectPrototype |};
  Ok (registry_of frozenDefinitions).

Definition createEmptyRegistry : result RoleRegistry := defineRoles [].

(** ** Permission engine ([src/core/permission-engine.ts]) *)

Definition WILDCARD_PERMISSION : jsstring := str "*".

(** [for (const permission of xs) permissions.add(permission)]. *)
Definition add_all (xs : list jsstring) (perms : gset jsstring)
  : gset jsstring :=
  foldl (fun acc permission => {[ permission ]} ∪ acc) perms xs.

Fixpoint collect_roles (registry : RoleRegistry) (rs : list jsstring)
  (perms : gset jsstring) : result (gset jsstring) :=
  match rs with
  | [] => Ok perms
  | role :: rs' =>
      rolePermissions ← iterate (getPermissions registry role);
      collect_roles registry rs' (add_all rolePermissions perms)
  end.

Definition collectUserPermissions (user : UserContext)
  (registry : RoleRegistry) : result (gset jsstring) :=
  let direct :=
    match permissions user with
    | Some ps => add_all ps ∅
    | None => ∅
    end in
  match roles user with
  | Some rs => collect_roles registry rs direct
  | None => Ok direct
  end.

(** The loop of [hasWildcardAccess]: [parts] is what is left of the split
    from index [i] on, and the loop stops before the last part. *)
Fixpoint namespace_loop (perms : gset jsstring) (parts : list jsstring)
  (namespace : jsstring) : bool :=
  match parts with
  | part :: (_ :: _) as rest =>
      let namespace' :=
        if decide (namespace = []) then part
        else namespace ++ str "." ++ part in
      if bool_decide (namespace' ++ str ".*" ∈ perms) then true
      else namespace_loop perms rest namespace'
  | _ => false
  end.

Definition hasWildcardAccess (perms : gset jsstring) (requested : jsstring)
  : bool :=
  if bool_decide (WILDCARD_PERMISSION ∈ perms) then true
  else namespace_loop perms (split_on DOT requested) [].

(** The namespace the loop has built after running over [parts], starting
    from [namespace]. *)
Definition code_join (namespace : jsstring) (parts : list jsstring)
  : jsstring :=
  foldl (fun ns part => if decide (ns = []) then part else ns ++ str "." ++ part)
        namespace parts.

(** The decision once the effective set is known. *)
Definition decide_on (perms : gset jsstring) (p : jsstring) : bool :=
  bool_decide (p ∈ perms) || hasWildcardAccess perms p.

(** [permission === "" || permission.trim() === ""]. *)
Definition is_blank (permission : jsstring) : bool :=
  bool_decide (permission = []) || bool_decide (trim permission = []).

Definition canUser (user : nullable UserContext) (permission : jsstring)
  (registry : RoleRegistry) : result bool :=
  match user with
  | Null | Undefined => Ok false
  | Present user =>
      if is_blank permission then Ok false
      else
        userPermissions ← collectUserPermissions user registry;
        if bool_decide (permission ∈ userPermissions) then Ok true
        else if hasWildcardAccess userPermissions permission then Ok true
        else Ok false
  end.

Fixpoint canUserAll_loop (user : nullable UserContext)
  (ps : list jsstring) (registry : RoleRegistry) : result bool :=
  match ps with
  | [] => Ok true
  | permission :: ps' =>
      granted ← canUser user permission registry;
      if negb granted then Ok false
      else canUserAll_loop user ps' registry
  end.

Definition canUserAll (user : nullable UserContext) (ps : list jsstring)
  (registry : RoleRegistry) : result bool :=
  if (length ps =? 0)%nat then Ok false
  else canUserAll_loop user ps registry.

Fixpoint canUserAny_loop (user : nullable UserContext)
  (ps : list jsstring) (registry : RoleRegistry) : result bool :=
  match ps with
  | [] => Ok false
  | permission :: ps' =>
      granted ← canUser user permission registry;
      if granted : bool then Ok true
      else canUserAny_loop user ps' registry
  end.

Definition canUserAny (user : nullable UserContext) (ps : list jsstring)
  (registry : RoleRegistry) : result bool :=
  if (length ps =? 0)%nat then Ok false
  else canUserAny_loop user ps registry.

Definition checkPermission (user : nullable UserContext)
  (permission : jsstring) (registry : RoleRegistry)
  : result PermissionCheckResult :=
  match user with
  | Null | Undefined =>
      Ok {| allowed := false;
            reason := Some (str "No user context provided") |}
  | Present _ =>
      if is_blank permission then
        Ok {| allowed := false;
              reason := Some (str "Empty permission requested") |}
      else
        granted ← canUser user permission registry;
        Ok {| allowed := granted;
              reason := Some (if granted : bool
                              then str "Permission " ++ QUOTE :: permission
                                   ++ QUOTE :: str " granted"
                              else str "Permission " ++ QUOTE :: permission
                                   ++ QUOTE :: str " denied") |}
  end.

(** ** The claimed decision rule

    The rule of the specification, in its own words: the effective set is
    the union of the direct permissions with the registry permissions of
    every role the registry knows; a request is granted by an exact match,
    by the global wildcard, or by [q.*] for a non-empty proper prefix [q]
    of the request's dot-separated segments. *)

Fixpoint join_dot (segments : list jsstring) : jsstring :=
  match segments with
  | [] => []
  | [s] => s
  | s :: rest => s ++ str "." ++ join_dot rest
  end.

Definition spec_role_permissions (registry : RoleRegistry) (role : jsstring)
  : list jsstring :=
  if hasRole registry role then
    match getPermissions registry role with
    | VArray elems => elems
    | _ => []
    end
  else [].

Definition spec_effective_set (user : UserContext) (registry : RoleRegistry)
  : gset jsstring :=
  list_to_set (default [] (permissions user))
  ∪ ⋃ ((fun role => list_to_set (spec_role_permissions registry role))
         <$> default [] (roles user)).

Definition spec_grants (perms : gset jsstring) (p : jsstring) : Prop :=
  p ∈ perms
  ∨ str "*" ∈ perms
  ∨ ∃ q : list jsstring,
      q ≠ [] ∧ q `prefix_of` split_on DOT p ∧ q ≠ split_on DOT p
      ∧ join_dot q ++ str ".*" ∈ perms.

(** The same rule as a test, for evaluation. *)
Definition spec_grants_b (perms : gset jsstring) (p : jsstring) : bool :=
  bool_decide (p ∈ perms)
  || bool_decide (str "*" ∈ perms)
  || existsb
       (fun n => bool_decide (join_dot (take n (split_on DOT p)) ++ str ".*" ∈ perms))
       (seq 1 (length (split_on DOT p) - 1)).

(** Users built from the two fields the engine reads. *)
Definition user_of (rs ps : option (list jsstring)) : UserContext :=
  {| userId := None; roles := rs; permissions := ps; meta := None |}.

(** [u'] carries every role and every direct permission of [u], an absent
    field read as the empty list. *)
Definition grants_included (u u' : UserContext) : Prop :=
  default [] (roles u) ⊆ default [] (roles u')
  ∧ default [] (permissions u) ⊆ default [] (permissions u').

(** The keys of a definitions object whose value is not [undefined]. *)
Definition defined_keys (definitions : RoleDefinition) : list jsstring :=
  (filter (fun kv => is_Some kv.2) definitions).*1.

(** ** The store

    [defineRoles] against a heap of mutable cells, so that what the caller
    still holds after the call (the definitions object and its permission
    arrays) and what the registry closes over are distinct locations that
    later writes can tell apart. *)
Module Heap.

Abbreviation loc := nat.

(** A property of a definitions object: [undefined] or a reference to an
    array. *)
Inductive slot : Type :=
  | SUndefined
  | SArray (l : loc).

Inductive hproto : Type :=
  | PObject
  | PArray (l : loc).

Inductive cell : Type :=
  | CArray (elems : list jsstring) (frozen : bool)
  | CObject (props : list (jsstring * slot)) (proto : hproto) (frozen : bool).

Abbreviation heap := (list cell).

Definition is_frozen (c : cell) : bool :=
  match c with
  | CArray _ frozen => frozen
  | CObject _ _ frozen => frozen
  end.

(** A new object or array literal. *)
Definition alloc (h : heap) (c : cell) : heap * loc := (h ++ [c], length h).

(** [[...permissions]]: the elements of the array behind a reference. *)
Definition read_array (h : heap) (l : loc) : result (list jsstring) :=
  match h !! l with
  | Some (CArray elems _) => Ok elems
  | _ => Throw TypeError
  end.

(** [Object.keys(definitions)]. *)
Definition object_keys (h : heap) (o : loc) : result (list jsstring) :=
  match h !! o with
  | Some (CObject props _ _) => Ok props.*1
  | _ => Throw TypeError
  end.

(** [definitions[role]] for an own key [role]. *)
Definition get_slot (h : heap) (o : loc) (key : jsstring) : slot :=
  match h !! o with
  | Some (CObject props _ _) => default SUndefined (own_get props key)
  | _ => SUndefined
  end.

(** [frozenDefinitions[role] = copy] in strict code. *)
Definition set_property (h : heap) (o : loc) (key : jsstring) (v : loc)
  : result heap :=
  match h !! o with
  | Some (CObject props proto false) =>
      let added := <[o := CObject (own_put props key (SArray v)) proto false]> h in
      if has_own props key then Ok added
      else if decide (key = PROTO) then
        Ok (<[o := CObject props (PArray v) false]> h)
      else
        match proto with
        | PObject => Ok added
        | PArray a =>
            match h !! a with
            | Some (CArray elems frozen) =>
                match array_own_get elems key with
                | Some _ => if frozen then Throw TypeError else Ok added
                | None => Ok added
                end
            | _ => Throw TypeError
            end
        end
  | _ => Throw TypeError
  end.

(** [Object.freeze(o)]. *)
Definition freeze (h : heap) (o : loc) : result heap :=
  match h !! o with
  | Some (CArray elems _) => Ok (<[o := CArray elems true]> h)
  | Some (CObject props proto _) => Ok (<[o := CObject props proto true]> h)
  | None => Throw TypeError
  end.

Fixpoint defineRoles_loop (definitions : loc) (keys : list jsstring)
  (frozenDefinitions : loc) (h : heap) : result heap :=
  match keys with
  | [] => Ok h
  | role :: keys' =>
      match get_slot h definitions role with
      | SArray permissions =>
          elems ← read_array h permissions;
          let '(h1, copy) := alloc h (CArray elems true) in
          h2 ← set_property h1 frozenDefinitions role copy;
          defineRoles_loop definitions keys' frozenDefinitions h2
      | SUndefined => defineRoles_loop definitions keys' frozenDefinitions h
      end
  end.

(** The registry is its three closures over [frozenDefinitions]; the
    location of that object stands for it. *)
Definition defineRoles (h : heap) (definitions : loc) : result (heap * loc) :=
  let '(h0, frozenDefinitions) := alloc h (CObject [] PObject false) in
  keys ← object_keys h0 definitions;
  h1 ← defineRoles_loop definitions keys frozenDefinitions h0;
  h2 ← freeze h1 frozenDefinitions;
  Ok (h2, frozenDefinitions).

(** What a reference shows when it is read now. *)
Definition deref (h : heap) (s : slot) : value :=
  match s with
  | SUndefined => VUndefined
  | SArray l =>
      match h !! l with
      | Some (CArray elems _) => VArray elems
      | Some (CObject _ _ _) => VObject "object"
      | None => VUndefined
      end
  end.

(** [frozenDefinitions[role]] read now. *)
Definition get_property (h : heap) (o : loc) (key : jsstring) : value :=
  match h !! o with
  | Some (CObject props proto _) =>
      match own_get props key with
      | Some s => deref h s
      | None =>
          match proto with
          | PObject => object_prototype_get ObjectPrototype key
          | PArray a =>
              match h !! a with
              | Some (CArray elems _) =>
                  match array_own_get elems key with
                  | Some v => v
                  | None =>
                      match builtin_method "Array.prototype"
                              ARRAY_PROTOTYPE_METHODS key with
                      | Some f => f
                      | None => object_prototype_get (FrozenArray elems) key
                      end
                  end
              | _ => VUndefined
              end
          end
      end
  | _ => VUndefined
  end.

Definition getPermissions (h : heap) (frozenDefinitions : loc)
  (role : jsstring) : value :=
  let permissions := get_property h frozenDefinitions role in
  if decide (permissions = VUndefined) then VArray [] else permissions.

Definition hasRole (h : heap) (frozenDefinitions : loc) (role : jsstring)
  : bool :=
  match h !! frozenDefinitions with
  | Some (CObject props _ _) => has_own props role
  | _ => false
  end.

Definition getRoleNames (h : heap) (frozenDefinitions : loc)
  : list jsstring :=
  match h !! frozenDefinitions with
  | Some (CObject props _ _) => props.*1
  | _ => []
  end.

(** One step of the caller's code after construction: a write to any cell
    that is not frozen (an element store, a push, a property added to or
    deleted from the definitions object, a freeze), or a new cell. Writes
    to frozen cells do not happen: they throw or are ignored. *)
Inductive mutation (h : heap) : heap -> Prop :=
  | mutation_write (l : loc) (c c' : cell) :
      h !! l = Some c -> is_frozen c = false ->
      mutation h (<[l := c']> h)
  | mutation_alloc (c : cell) :
      mutation h (h ++ [c]).

(** The definitions object behind [o] as the pure model sees it. *)
Definition snapshot_slot (h : heap) (s : slot)
  : option (option (list jsstring)) :=
  match s with
  | SUndefined => Some None
  | SArray l =>
      match h !! l with
      | Some (CArray elems _) => Some (Some elems)
      | _ => None
      end
  end.

Definition snapshot (h : heap) (o : loc) : option RoleDefinition :=
  match h !! o with
  | Some (CObject props _ _) =>
      mapM (fun kv => (fun v => (kv.1, v)) <$> snapshot_slot h kv.2) props
  | _ => None
  end.

(** A later heap keeps every frozen cell of an earlier one. *)
Definition frozen_preserved (h h' : heap) : Prop :=
  ∀ l c, h !! l = Some c -> is_frozen c = true -> h' !! l = Some c.

(** Every cell but the one at [o] is kept. *)
Definition cells_kept (o : loc) (h h' : heap) : Prop :=
  ∀ l c, l ≠ o -> h !! l = Some c -> h' !! l = Some c.

(** The heap object at [o] (with the given frozen flag) stands for the
    pure object [obj]: same keys in the same order, each own property a
    reference to a frozen array with the pure object's elements, and the
    same prototype. *)
Definition slot_is (h : heap) (s : slot) (elems : list jsstring) : Prop :=
  ∃ l, s = SArray l ∧ h !! l = Some (CArray elems true).

Definition proto_is (h : heap) (hp : hproto) (p : prototype) : Prop :=
  match hp, p with
  | PObject, ObjectPrototype => True
  | PArray a, FrozenArray elems => h !! a = Some (CArray elems true)
  | _, _ => False
  end.

Definition backs (h : heap) (o : loc) (frozen : bool) (obj : object) : Prop :=
  ∃ props hp,
    h !! o = Some (CObject props hp frozen)
    ∧ Forall2 (fun kv kv' => kv.1 = kv'.1 ∧ slot_is h kv.2 kv'.2) props (own obj)
    ∧ proto_is h hp (proto obj).

(** The definitions object at [d] reads as [D]: same keys, and each own
    property either [undefined] or a reference to an array holding the
    listed elements. *)
Definition defs_view (h : heap) (d : loc) (D : RoleDefinition) : Prop :=
  ∃ props hp fz,
    h !! d = Some (CObject props hp fz)
    ∧ Forall2 (fun kv kv' => kv.1 = kv'.1
                             ∧ snapshot_slot h kv.2 = Some kv'.2) props D.

End Heap.

(** Whether the user holds [x]: directly, or through a role that the
    registry answers with something iterable holding [x]. *)
Definition holds (user : UserContext) (registry : RoleRegistry)
  (x : jsstring) : Prop :=
  x ∈ default [] (permissions user)
  ∨ ∃ r l, r ∈ default [] (roles user)
           ∧ iterate (getPermissions registry r) = Ok l ∧ x ∈ l.


(** ** Express adapter ([src/adapters/express.ts]) *)
Module Express.

(** [ExpressRequest]: [user] is optional. *)
Record ExpressRequest : Type := {
  user : option UserContext;
}.

Record PermissionMiddlewareOptions : Type := {
  statusCode : option Z;
  message : option jsstring;
  getUser : option (ExpressRequest -> nullable UserContext);
}.

(** [Required<PermissionMiddlewareOptions>]. *)
Record RequiredOptions : Type := {
  required_statusCode : Z;
  required_message : jsstring;
  required_getUser : ExpressRequest -> nullable UserContext;
}.

Definition DEFAULT_OPTIONS : RequiredOptions := {|
  required_statusCode := 403%Z;
  required_message := str "Forbidden";
  required_getUser req :=
    match user req with
    | Some u => Present u
    | None => Undefined
    end;
|}.

(** [{}], the default of the [options] parameter. *)
Definition no_options : PermissionMiddlewareOptions :=
  {| statusCode := None; message := None; getUser := None |}.

(** [{ ...DEFAULT_OPTIONS, ...options }]: a key present in [options]
    wins. *)
Definition spread_options (options : PermissionMiddlewareOptions)
  : RequiredOptions := {|
  required_statusCode :=
    default (required_statusCode DEFAULT_OPTIONS) (statusCode options);
  required_message :=
    default (required_message DEFAULT_OPTIONS) (message options);
  required_getUser :=
    default (required_getUser DEFAULT_OPTIONS) (getUser options);
|}.

(** What a middleware does to its [res] and [next] arguments, in order. *)
Inductive call : Type :=
  | next
  | res_status (code : Z)
  | res_json (error : jsstring).

Abbreviation ExpressMiddleware := (ExpressRequest -> result (list call)).

(** [res.status(opts.statusCode).json({ error: opts.message })]. *)
Definition deny (opts : RequiredOptions) : list call :=
  [res_status (required_statusCode opts); res_json (required_message opts)].

Definition requirePermission (permission : jsstring)
  (registry : RoleRegistry) (options : option PermissionMiddlewareOptions)
  : ExpressMiddleware :=
  let opts := spread_options (default no_options options) in
  fun req =>
    let user := required_getUser opts req in
    granted ← canUser user permission registry;
    if granted : bool then Ok [next] else Ok (deny opts).

Definition requireAllPermissions (permissions : list jsstring)
  (registry : RoleRegistry) (options : option PermissionMiddlewareOptions)
  : ExpressMiddleware :=
  let opts := spread_options (default no_options options) in
  fun req =>
    let user := required_getUser opts req in
    granted ← canUserAll user permissions registry;
    if granted : bool then Ok [next] else Ok (deny opts).

Definition requireAnyPermission (permissions : list jsstring)
  (registry : RoleRegistry) (options : option PermissionMiddlewareOptions)
  : ExpressMiddleware :=
  let opts := spread_options (default no_options options) in
  fun req =>
    let user := required_getUser opts req in
    granted ← canUserAny user permissions registry;
    if granted : bool then Ok [next] else Ok (deny opts).

End Express.

(** ** Next.js adapter *)
Module NextJs.

(** [PermissionResult]: [user] is [UserContext | null]. *)
Record PermissionResult : Type := {
  allowed : bool;
  user : option UserContext;
}.

(** [user ?? null]. *)
Definition or_null (user : nullable UserContext) : option UserContext :=
  match user with
  | Present u => Some u
  | Null | Undefined => None
  end.

Definition checkNextPermission (user : nullable UserContext)
  (permission : jsstring) (registry : RoleRegistry)
  : result PermissionResult :=
  granted ← canUser user permission registry;
  Ok {| allowed := granted; user := or_null user |}.

Definition checkNextPermissionAll (user : nullable UserContext)
  (permissions : list jsstring) (registry : RoleRegistry)
  : result PermissionResult :=
  granted ← canUserAll user permissions registry;
  Ok {| allowed := granted; user := or_null user |}.

Definition checkNextPermissionAny (user : nullable UserContext)
  (permissions : list jsstring) (registry : RoleRegistry)
  : result PermissionResult :=
  granted ← canUserAny user permissions registry;
  Ok {| allowed := granted; user := or_null user |}.

Section wrappers.
(** The request type [T], the platform's [Response], and
    [Response.json({ error }, { status })]. *)
Context {T Response : Type} (Response_json : jsstring -> Z -> Response).

Record NextPermissionOptions : Type := {
  getUser : T -> nullable UserContext;
  statusCode : option Z;
  message : option jsstring;
}.

(** [user === null || !canUser(user, permission, registry)] answers with
    the JSON error; the handler is reached only past it, where [user] is a
    user context ([canUser] is false for [undefined]). *)
Definition withPermission (permission : jsstring) (registry : RoleRegistry)
  (options : NextPermissionOptions) (handler : T -> UserContext -> Response)
  : T -> result Response :=
  let statusCode := default 403%Z (statusCode options) in
  let message := default (str "Forbidden") (message options) in
  fun request =>
    let user := getUser options request in
    match user with
    | Null => Ok (Response_json message statusCode)
    | _ =>
        granted ← canUser user permission registry;
        if negb granted then Ok (Response_json message statusCode)
        else match user with
             | Present u => Ok (handler request u)
             | _ => Ok (Response_json message statusCode)
             end
    end.

Definition withAllPermissions (permissions : list jsstring) (registry : RoleRegistry)
  (options : NextPermissionOptions) (handler : T -> UserContext -> Response)
  : T -> result Response :=
  let statusCode := default 403%Z (statusCode options) in
  let message := default (str "Forbidden") (message options) in
  fun request =>
    let user := getUser options request in
    match user with
    | Null => Ok (Response_json message statusCode)
    | _ =>
        granted ← canUserAll user permissions registry;
        if negb granted then Ok (Response_json message statusCode)
        else match user with
             | Present u => Ok (handler request u)
             | _ => Ok (Response_json message statusCode)
             end
    end.

Definition withAnyPermission (permissions : list jsstring) (registry : RoleRegistry)
  (options : NextPermissionOptions) (handler : T -> UserContext -> Response)
  : T -> result Response :=
  let statusCode := default 403%Z (statusCode options) in
  let message := default (str "Forbidden") (message options) in
  fun request =>
    let user := getUser options request in
    match user with
    | Null => Ok (Response_json message statusCode)
    | _ =>
        granted ← canUserAny user permissions registry;
        if negb granted then Ok (Response_json message statusCode)
        else match user with
             | Present u => Ok (handler request u)
             | _ => Ok (Response_json message statusCode)
             end
    end.

End wrappers.

End NextJs.

(** ** React bindings (context, provider, hooks, components) *)
Module React.

Record PermissionContextValue : Type := {
  user : nullable UserContext;
  registry : RoleRegistry;
  can : jsstring -> result bool;
  canAll : list jsstring -> result bool;
  canAny : list jsstring -> result bool;
}.

(** The value seen when no provider is present. *)
Definition defaultContextValue : PermissionContextValue := {|
  user := Null;
  registry := {| getPermissions _ := VArray [];
                 hasRole _ := false;
                 getRoleNames _ := [] |};
  can _ := Ok false;
  canAll _ := Ok false;
  canAny _ := Ok false;
|}.

(** The value [PermissionProvider] hands to its subtree. *)
Definition PermissionProvider (user : nullable UserContext)
  (registry : RoleRegistry) : PermissionContextValue := {|
  user := user;
  registry := registry;
  can permission := canUser user permission registry;
  canAll permissions := canUserAll user permissions registry;
  canAny permissions := canUserAny user permissions registry;
|}.

(** [useContext(PermissionContext)]: the value of the nearest provider,
    or the default. *)
Definition useContext (provided : option PermissionContextValue)
  : PermissionContextValue :=
  default defaultContextValue provided.

Definition usePermissions (provided : option PermissionContextValue)
  : PermissionContextValue :=
  useContext provided.

Definition useCan (provided : option PermissionContextValue)
  (permission : jsstring) : result bool :=
  can (useContext provided) permission.

Definition useCanAll (provided : option PermissionContextValue)
  (permissions : list jsstring) : result bool :=
  canAll (useContext provided) permissions.

Definition useCanAny (provided : option PermissionContextValue)
  (permissions : list jsstring) : result bool :=
  canAny (useContext provided) permissions.

Definition useUser (provided : option PermissionContextValue)
  : nullable UserContext :=
  user (useContext provided).

Section components.
(** A [ReactNode] is [null] ([None]) or some element. *)
Context {element : Type}.

Record CanProps : Type := {
  permission : option jsstring;
  permissions : option (list jsstring);
  anyOf : option bool;
  children : option element;
  fallback : option (option element);
}.

Definition Can (provided : option PermissionContextValue) (props : CanProps)
  : result (option element) :=
  let anyOf := default false (anyOf props) in
  let fallback := default None (fallback props) in
  match permission props with
  | Some permission =>
      allowed ← useCan provided permission;
      Ok (if allowed : bool then children props else fallback)
  | None =>
      match permissions props with
      | Some permissions =>
          if (0 <? length permissions)%nat then
            allowed ← (if anyOf then useCanAny provided permissions
                       else useCanAll provided permissions);
            Ok (if allowed : bool then children props else fallback)
          else Ok fallback
      | None => Ok fallback
      end
  end.

Record CannotProps : Type := {
  cannot_permission : option jsstring;
  cannot_permissions : option (list jsstring);
  cannot_anyOf : option bool;
  cannot_children : option element;
}.

Definition Cannot (provided : option PermissionContextValue)
  (props : CannotProps) : result (option element) :=
  let anyOf := default false (cannot_anyOf props) in
  match cannot_permission props with
  | Some permission =>
      allowed ← useCan provided permission;
      Ok (if allowed : bool then None else cannot_children props)
  | None =>
      match cannot_permissions props with
      | Some permissions =>
          if (0 <? length permissions)%nat then
            allowed ← (if anyOf then useCanAny provided permissions
                       else useCanAll provided permissions);
            Ok (if allowed : bool then None else cannot_children props)
          else Ok (cannot_children props)
      | None => Ok (cannot_children props)
      end
  end.
End components.

End React.

(** * Properties *)

(** ** Strings *)

Lemma split_on_nonempty sep s : split_on sep s ≠ [].
Proof.
  destruct s as [|c s]; simpl; [done|].
  destruct (c =? sep); [done|]. by destruct (split_on sep s).
Qed.

Lemma trim_start_all_whitespace s :
  trim_start s = [] ↔ Forall (fun c => is_whitespace c = true) s.
Proof.
  induction s as [|c s IH]; simpl.
  - split; [constructor | done].
  - destruct (is_whitespace c) eqn:Hc.
    + rewrite IH. split; [by constructor | by inversion 1].
    + split; [done|]. inversion 1; congruence.
Qed.

Lemma trim_start_whitespace_inv s :
  Forall (fun c => is_whitespace c = true) (trim_start s) ->
  Forall (fun c => is_whitespace c = true) s.
Proof.
  induction s as [|c s IH]; simpl; [done|].
  destruct (is_whitespace c) eqn:Hc; [|done].
  intros H. constructor; auto.
Qed.

(** [trim] leaves nothing exactly when every code unit is white space. *)
Lemma trim_empty_iff s :
  trim s = [] ↔ Forall (fun c => is_whitespace c = true) s.
Proof.
  unfold trim, trim_end. split.
  - intros H. apply (f_equal reverse) in H.
    rewrite reverse_involutive, reverse_nil in H.
    apply trim_start_all_whitespace in H.
    apply Forall_reverse in H. rewrite reverse_involutive in H.
    by apply trim_start_whitespace_inv.
  - intros H. apply trim_start_all_whitespace in H as ->. done.
Qed.

Lemma is_blank_iff p :
  is_blank p = true ↔ Forall (fun c => is_whitespace c = true) p.
Proof.
  unfold is_blank. rewrite orb_true_iff, !bool_decide_eq_true, trim_empty_iff.
  split; [intros [->|H]; [constructor | done] | by right].
Qed.

(** ** The result monad *)

Lemma bind_Ok {A B} (f : A -> result B) (m : result A) (b : B) :
  m ≫= f = Ok b ↔ ∃ a, m = Ok a ∧ f a = Ok b.
Proof.
  destruct m as [a|e]; unfold mbind, result_bind; split.
  - eauto.
  - by intros (a' & [= <-] & H).
  - done.
  - by intros (a' & [=] & _).
Qed.

Lemma bind_Throw {A B} (f : A -> result B) (m : result A) (e : error) :
  m ≫= f = Throw e ↔ m = Throw e ∨ ∃ a, m = Ok a ∧ f a = Throw e.
Proof.
  destruct m as [a|e']; unfold mbind, result_bind; split.
  - intros H. right. eauto.
  - by intros [[=] | (a' & [= <-] & H)].
  - intros [= ->]. by left.
  - by intros [[= ->] | (a' & [=] & _)].
Qed.

Implicit Types (R : RoleRegistry) (rs ps xs : list jsstring).
Implicit Types (perms S : gset jsstring) (x p q r : jsstring).
Implicit Types (u : UserContext) (nu : nullable UserContext).

(** ** The effective permission set *)

Lemma elem_of_add_all (x : jsstring) (xs : list jsstring)
  (perms : gset jsstring) :
  x ∈ add_all xs perms ↔ x ∈ xs ∨ x ∈ perms.
Proof.
  unfold add_all. revert perms.
  induction xs as [|y xs IH]; intros perms; simpl.
  - rewrite elem_of_nil. tauto.
  - rewrite IH, elem_of_union, elem_of_singleton, elem_of_cons. tauto.
Qed.

Lemma collect_roles_elem R (rs : list jsstring) (perms S : gset jsstring) :
  collect_roles R rs perms = Ok S ->
  ∀ x, x ∈ S ↔
       x ∈ perms
       ∨ ∃ r l, r ∈ rs ∧ iterate (getPermissions R r) = Ok l ∧ x ∈ l.
Proof.
  revert perms. induction rs as [|r rs IH]; intros perms; simpl.
  - intros [= ->] x. split; [by left|].
    intros [H | (r & l & Hr & _)]; [done | by apply elem_of_nil in Hr].
  - intros (l & Hl & Hrest)%bind_Ok x.
    rewrite (IH _ Hrest x), elem_of_add_all. split.
    + intros [[Hx | Hx] | (r' & l' & Hr' & Hl' & Hx)].
      * right. exists r, l. by rewrite elem_of_cons; auto.
      * by left.
      * right. exists r', l'. rewrite elem_of_cons; auto.
    + intros [Hx | (r' & l' & [-> | Hr']%elem_of_cons & Hl' & Hx)].
      * by left; right.
      * left; left. congruence.
      * right. eauto.
Qed.

Lemma collect_roles_returns R (rs : list jsstring) (perms : gset jsstring) :
  returns (collect_roles R rs perms) ↔
  ∀ r, r ∈ rs -> returns (iterate (getPermissions R r)).
Proof.
  revert perms. induction rs as [|r rs IH]; intros perms; simpl.
  - split; [by intros _ r ?%elem_of_nil | by eexists].
  - split.
    + intros [S (l & Hl & Hrest)%bind_Ok] r' [-> | Hr']%elem_of_cons.
      * by eexists.
      * eapply IH; [by eexists | done].
    + intros H. destruct (H r) as [l Hl]; [by left|].
      rewrite Hl. simpl. apply IH. intros r' Hr'. apply H. by right.
Qed.

Lemma collectUserPermissions_elem u R S :
  collectUserPermissions u R = Ok S ->
  ∀ x, x ∈ S ↔
       x ∈ default [] (permissions u)
       ∨ ∃ r l, r ∈ default [] (roles u)
                ∧ iterate (getPermissions R r) = Ok l ∧ x ∈ l.
Proof.
  unfold collectUserPermissions. intros H x.
  assert (Hd : ∀ y, y ∈ match permissions u with
                        | Some ps => add_all ps ∅
                        | None => (∅ : gset jsstring)
                        end ↔ y ∈ default [] (permissions u)).
  { intros y. destruct (permissions u); simpl.
    - rewrite elem_of_add_all, elem_of_empty. tauto.
    - by rewrite elem_of_empty, elem_of_nil. }
  destruct (roles u) as [rs|]; simpl.
  - rewrite (collect_roles_elem _ _ _ _ H x), Hd. done.
  - injection H as <-. rewrite Hd. split; [by left|].
    intros [? | (r & l & Hr%elem_of_nil & _)]; done.
Qed.

Lemma collectUserPermissions_returns u R :
  returns (collectUserPermissions u R) ↔
  ∀ r, r ∈ default [] (roles u) -> returns (iterate (getPermissions R r)).
Proof.
  unfold collectUserPermissions. destruct (roles u) as [rs|]; simpl.
  - apply collect_roles_returns.
  - split; [by intros _ r ?%elem_of_nil | by eexists].
Qed.

(** ** [canUser] unfolded *)

Lemma canUser_present u p R :
  canUser (Present u) p R =
  if is_blank p then Ok false
  else perms ← collectUserPermissions u R; Ok (decide_on perms p).
Proof.
  unfold canUser, decide_on. destruct (is_blank p); [done|].
  destruct (collectUserPermissions u R) as [S|e]; simpl; [|done].
  destruct (bool_decide (p ∈ S)); simpl; [done|].
  by destruct (hasWildcardAccess S p).
Qed.

(** Whether [canUser] throws does not depend on a non-blank request. *)
Lemma canUser_granted_returns nu p R :
  canUser nu p R = Ok true -> ∀ q, returns (canUser nu q R).
Proof.
  destruct nu as [| |u]; [done..|].
  rewrite canUser_present. intros H q. rewrite canUser_present.
  destruct (is_blank p); [done|].
  apply bind_Ok in H as (S & -> & _). simpl.
  destruct (is_blank q); by eexists.
Qed.

Lemma canUserAll_loop_true nu ps R :
  canUserAll_loop nu ps R = Ok true ↔
  ∀ p, p ∈ ps -> canUser nu p R = Ok true.
Proof.
  induction ps as [|q ps IH]; simpl.
  - split; [by intros _ p ?%elem_of_nil | done].
  - rewrite bind_Ok. split.
    + intros ([] & Hq & H); simpl in H; [|done].
      intros p [-> | Hp]%elem_of_cons; [done | by apply IH].
    + intros H. exists true. split; [apply H; by left|].
      simpl. apply IH. intros p Hp. apply H. by right.
Qed.

Lemma canUserAny_loop_true nu ps R :
  canUserAny_loop nu ps R = Ok true ↔
  ∃ p, p ∈ ps ∧ canUser nu p R = Ok true.
Proof.
  induction ps as [|q ps IH]; simpl.
  - split; [done | by intros (p & ?%elem_of_nil & _)].
  - rewrite bind_Ok. split.
    + intros ([] & Hq & H).
      * exists q. split; [by left | done].
      * apply IH in H as (p & Hp & H). exists p. split; [by right | done].
    + intros (p & Hp & H).
      destruct (canUser_granted_returns _ _ _ H q) as [[] Hq].
      * by exists true.
      * exists false. split; [done|]. apply IH.
        apply elem_of_cons in Hp as [-> | Hp]; [congruence | eauto].
Qed.

(** ** Deny by default *)

(** C4. Without a user context (null or undefined), [canUser] returns
    false for every registry and every requested permission, the global
    wildcard included. *)
Theorem canUser_no_user_denied (R : RoleRegistry) (p : jsstring) :
  canUser Null p R = Ok false ∧ canUser Undefined p R = Ok false
  ∧ canUser Null WILDCARD_PERMISSION R = Ok false.
Proof. done. Qed.

(** C5. For every user context that is present and every registry,
    [canUser] returns false when the requested permission is the empty
    string or holds white space only; what the user is granted plays no
    part. *)
Theorem canUser_blank_denied (u : UserContext) (R : RoleRegistry)
  (p : jsstring) :
  p = [] ∨ Forall (fun c => is_whitespace c = true) p ->
  canUser (Present u) p R = Ok false.
Proof.
  intros H. rewrite canUser_present.
  assert (is_blank p = true) as ->; [|done].
  apply is_blank_iff. by destruct H as [-> | H].
Qed.

(** C6. For an empty list both [canUserAll] and [canUserAny] return
    false; for a non-empty list, [canUserAll] returns true exactly when
    [canUser] returns true for every element, and [canUserAny] returns
    true exactly when [canUser] returns true for at least one element. *)
Theorem canUserAll_canUserAny_spec (u : nullable UserContext)
  (R : RoleRegistry) (ps : list jsstring) :
  (ps = [] -> canUserAll u ps R = Ok false ∧ canUserAny u ps R = Ok false)
  ∧ (ps ≠ [] ->
     (canUserAll u ps R = Ok true ↔ ∀ p, p ∈ ps -> canUser u p R = Ok true)
     ∧ (canUserAny u ps R = Ok true ↔ ∃ p, p ∈ ps ∧ canUser u p R = Ok true)).
Proof.
  split.
  - by intros ->.
  - intros Hne. unfold canUserAll, canUserAny.
    destruct ps as [|q ps]; [done|].
    change (length (q :: ps) =? 0)%nat with false. cbv iota.
    split; [apply canUserAll_loop_true | apply canUserAny_loop_true].
Qed.

(** C7. The [allowed] field of [checkPermission] is the result of
    [canUser] on the same arguments, for every user context (null and
    undefined included), permission and registry. *)
Theorem checkPermission_allowed_canUser (u : nullable UserContext)
  (p : jsstring) (R : RoleRegistry) :
  allowed <$> checkPermission u p R = canUser u p R.
Proof.
  destruct u as [| |u]; [done..|].
  unfold checkPermission. rewrite canUser_present.
  destruct (is_blank p); [done|].
  by destruct (collectUserPermissions u R).
Qed.

(** ** The backing object of a registry *)

Section own_properties.
Context {A : Type}.
Implicit Types (props : list (jsstring * A)) (key k : jsstring) (v : A).

Lemma has_own_true props key :
  has_own props key = true ↔ key ∈ props.*1.
Proof.
  unfold has_own. induction props as [|[k v] props IH]; simpl.
  - split; [done | by intros ?%elem_of_nil].
  - rewrite elem_of_cons. destruct (decide (k = key)) as [->|Hne].
    + split; [by left | done].
    + rewrite IH. split; [by right | by intros [? | ?]].
Qed.

Lemma has_own_false props key :
  has_own props key = false ↔ key ∉ props.*1.
Proof.
  rewrite <- has_own_true. by destruct (has_own props key).
Qed.

Lemma own_get_None props key :
  own_get props key = None ↔ key ∉ props.*1.
Proof.
  rewrite <- has_own_false. unfold has_own.
  by destruct (own_get props key).
Qed.

Lemma own_get_NoDup props key v :
  NoDup props.*1 -> (key, v) ∈ props -> own_get props key = Some v.
Proof.
  induction props as [|[k w] props IH]; simpl.
  - by intros _ ?%elem_of_nil.
  - intros [Hk Hnd]%NoDup_cons [[= -> ->] | Hin]%elem_of_cons.
    + by rewrite decide_True.
    + rewrite decide_False; [by apply IH|].
      intros ->. apply Hk. apply list_elem_of_fmap. by exists (key, v).
Qed.

Lemma own_put_fresh props key v :
  key ∉ props.*1 -> own_put props key v = props ++ [(key, v)].
Proof.
  induction props as [|[k w] props IH]; simpl; [done|].
  intros [Hne Hnin]%not_elem_of_cons.
  rewrite decide_False by done. by rewrite IH.
Qed.

Lemma own_put_keys props key v :
  key ∈ props.*1 -> (own_put props key v).*1 = props.*1.
Proof.
  induction props as [|[k w] props IH]; simpl.
  - by intros ?%elem_of_nil.
  - intros Hin. destruct (decide (k = key)) as [->|Hne]; simpl; [done|].
    f_equal. apply IH. by apply elem_of_cons in Hin as [-> | ?].
Qed.
End own_properties.

(** A write adds at most the written key to the own properties. *)
Lemma obj_set_own_keys o key (perms : list jsstring) o' :
  obj_set o key perms = Ok o' ->
  ∀ k, k ∈ (own o').*1 -> k ∈ (own o).*1 ∨ k = key.
Proof.
  unfold obj_set. intros H k Hk.
  assert (Hput : ∀ k, k ∈ (own_put (own o) key perms).*1 ->
                      k ∈ (own o).*1 ∨ k = key).
  { intros k'. destruct (has_own (own o) key) eqn:Hown.
    - apply has_own_true in Hown. rewrite own_put_keys by done. by left.
    - apply has_own_false in Hown. rewrite own_put_fresh by done.
      rewrite fmap_app, elem_of_app. simpl. rewrite list_elem_of_singleton.
      done. }
  destruct (has_own (own o) key).
  { injection H as <-. by apply Hput. }
  destruct (decide (key = PROTO)).
  { injection H as <-. by left. }
  destruct (proto o) as [|elems].
  { injection H as <-. by apply Hput. }
  destruct (array_own_get elems key); [done|].
  injection H as <-. by apply Hput.
Qed.

Lemma defineRoles_loop_own_keys D keys o o' :
  defineRoles_loop D keys o = Ok o' ->
  ∀ k, k ∈ (own o').*1 -> k ∈ (own o).*1 ∨ k ∈ keys.
Proof.
  revert o. induction keys as [|role keys IH]; intros o; simpl.
  - intros [= <-] k Hk. by left.
  - intros H k Hk. destruct (mjoin (own_get D role)) as [perms|].
    + apply bind_Ok in H as (o1 & Hset & Hloop).
      destruct (IH _ Hloop k Hk) as [Hk1 | Hk1].
      * destruct (obj_set_own_keys _ _ _ _ Hset k Hk1) as [? | ->].
        -- by left.
        -- right. by left.
      * right. by right.
    + destruct (IH _ H k Hk) as [? | ?]; [by left | right; by right].
Qed.

(** The half of the unknown-role rule that the code keeps: a name that is
    not a key of the definitions is never reported as a role. *)
Lemma defineRoles_hasRole_unknown (D : RoleDefinition) R r :
  defineRoles D = Ok R -> r ∉ D.*1 -> hasRole R r = false.
Proof.
  unfold defineRoles. intros (o & Hloop & [= <-])%bind_Ok Hr. simpl.
  apply has_own_false. intros Hk.
  destruct (defineRoles_loop_own_keys _ _ _ _ Hloop r Hk) as [Hin | Hin].
  - by apply elem_of_nil in Hin.
  - done.
Qed.

(** Without a defined [__proto__] key, and with each key listed once, the
    loop stores every defined entry, in order, and leaves the prototype
    alone. *)
Lemma defineRoles_loop_plain (D : RoleDefinition) keys o :
  proto o = ObjectPrototype ->
  NoDup keys ->
  (∀ k, k ∈ keys -> k ∉ (own o).*1) ->
  (∀ k, k ∈ keys -> is_Some (mjoin (own_get D k)) -> k ≠ PROTO) ->
  ∃ o', defineRoles_loop D keys o = Ok o'
        ∧ proto o' = ObjectPrototype
        ∧ own o' = own o
                   ++ omap (fun k => (fun v => (k, v)) <$> mjoin (own_get D k)) keys.
Proof.
  revert o. induction keys as [|role keys IH]; intros o Hp Hnd Hfresh Hproto.
  - exists o. simpl. by rewrite app_nil_r.
  - apply NoDup_cons in Hnd as [Hrole Hnd]. simpl.
    destruct (mjoin (own_get D role)) as [perms|] eqn:Hget; simpl.
    + assert (Hset : obj_set o role perms
                     = Ok {| own := own o ++ [(role, perms)];
                             proto := ObjectPrototype |}).
      { unfold obj_set.
        assert (role ∉ (own o).*1) as Hnot by (apply Hfresh; by left).
        rewrite (proj2 (has_own_false _ _) Hnot).
        rewrite decide_False.
        - by rewrite Hp, own_put_fresh.
        - apply Hproto; [by left | by rewrite Hget]. }
      rewrite Hset. simpl.
      destruct (IH {| own := own o ++ [(role, perms)];
                      proto := ObjectPrototype |}) as (o' & -> & Hp' & Hown).
      * done.
      * done.
      * intros k Hk. simpl. rewrite fmap_app, elem_of_app. simpl.
        rewrite list_elem_of_singleton. intros [Hin | ->].
        -- by apply (Hfresh k); [right|].
        -- done.
      * intros k Hk. apply Hproto. by right.
      * exists o'. split_and!; [done..|].
        rewrite Hown. simpl. by rewrite <- app_assoc.
    + apply IH; [done..| |].
      * intros k Hk. apply Hfresh. by right.
      * intros k Hk. apply Hproto. by right.
Qed.

Lemma defined_keys_filter (D : RoleDefinition) :
  NoDup D.*1 ->
  (omap (fun k => (fun v => (k, v)) <$> mjoin (own_get D k)) D.*1).*1
  = defined_keys D.
Proof.
  intros Hnd. unfold defined_keys.
  assert (Hgen : ∀ l : RoleDefinition, l ⊆ D ->
    (omap (fun k => (fun v => (k, v)) <$> mjoin (own_get D k)) l.*1).*1
    = (filter (fun kv => is_Some kv.2) l).*1).
  { induction l as [|[k v] l IH]; intros Hsub; [done|].
    simpl. rewrite (own_get_NoDup D k v Hnd) by (apply Hsub; by left).
    simpl. rewrite filter_cons. simpl.
    assert (Hl : l ⊆ D) by (intros x Hx; apply Hsub; by right).
    destruct v as [perms|]; simpl.
    - f_equal. by apply IH.
    - by apply IH. }
  by apply Hgen.
Qed.

Lemma own_get_Some_elem {A} (props : list (jsstring * A)) key (v : A) :
  own_get props key = Some v -> (key, v) ∈ props.
Proof.
  induction props as [|[k w] props IH]; simpl; [done|].
  destruct (decide (k = key)) as [->|Hne].
  - intros [= ->]. by left.
  - intros H. right. by apply IH.
Qed.

Lemma defined_keys_elem (D : RoleDefinition) r :
  r ∈ defined_keys D ↔ ∃ elems, (r, Some elems) ∈ D.
Proof.
  unfold defined_keys. rewrite list_elem_of_fmap. split.
  - intros ([k [elems|]] & -> & [Hsome Hin]%list_elem_of_filter).
    + by exists elems.
    + by destruct Hsome.
  - intros [elems Hin]. exists (r, Some elems). split; [done|].
    apply list_elem_of_filter. split; [by eexists | done].
Qed.

Lemma defined_keys_NoDup (D : RoleDefinition) :
  NoDup D.*1 -> NoDup (defined_keys D).
Proof.
  intros Hnd. eapply sublist_NoDup; [exact Hnd|].
  unfold defined_keys. apply fmap_sublist, sublist_filter.
Qed.

(** The registry of a definitions object that lists each key once and has
    no defined [__proto__] entry: its role names are the defined keys, in
    order and without repetition, [hasRole] holds for exactly those names,
    and a defined role reads back its permissions. *)
Lemma defineRoles_role_names (D : RoleDefinition) :
  NoDup D.*1 ->
  PROTO ∉ defined_keys D ->
  ∃ R, defineRoles D = Ok R
       ∧ getRoleNames R () = defined_keys D
       ∧ NoDup (getRoleNames R ())
       ∧ (∀ r, hasRole R r = true ↔ r ∈ defined_keys D)
       ∧ (∀ r elems, (r, Some elems) ∈ D -> getPermissions R r = VArray elems).
Proof.
  intros Hnd Hproto.
  destruct (defineRoles_loop_plain D D.*1 {| own := []; proto := ObjectPrototype |})
    as (o & Hloop & Hp & Hown); [done | done | | |].
  { intros k _ ?%elem_of_nil. done. }
  { intros k Hk [elems Hget] ->. apply Hproto.
    apply defined_keys_elem. exists elems. apply own_get_Some_elem.
    by destruct (own_get D PROTO) as [[?|]|]; simplify_eq/=. }
  simpl in Hown.
  assert (Hkeys : (own o).*1 = defined_keys D).
  { by rewrite Hown, defined_keys_filter. }
  exists (registry_of o). unfold defineRoles. rewrite Hloop. simpl.
  split_and!; [done | done | | |].
  - rewrite Hkeys. by apply defined_keys_NoDup.
  - intros r. by rewrite has_own_true, Hkeys.
  - intros r elems Hin. unfold obj_get.
    rewrite (own_get_NoDup (own o) r elems).
    + by rewrite decide_False.
    + rewrite Hkeys. by apply defined_keys_NoDup.
    + rewrite Hown. apply list_elem_of_omap. exists r. split.
      * apply list_elem_of_fmap. by exists (r, Some elems).
      * by rewrite (own_get_NoDup D r (Some elems)).
Qed.

(** A name that is neither a key of the definitions nor a property of
    [Object.prototype] reads back as the empty array. *)
Lemma defineRoles_getPermissions_unknown (D : RoleDefinition) R r :
  defineRoles D = Ok R ->
  NoDup D.*1 ->
  PROTO ∉ defined_keys D ->
  r ∉ D.*1 ->
  r ≠ PROTO ->
  r ∉ str <$> OBJECT_PROTOTYPE_METHODS ->
  getPermissions R r = VArray [].
Proof.
  intros HR Hnd Hproto Hr Hne Hmeth.
  destruct (defineRoles_loop_plain D D.*1 {| own := []; proto := ObjectPrototype |})
    as (o & Hloop & Hp & Hown); [done | done | | |].
  { intros k _ ?%elem_of_nil. done. }
  { intros k Hk [elems Hget] ->. apply Hproto.
    apply defined_keys_elem. exists elems. apply own_get_Some_elem.
    by destruct (own_get D PROTO) as [[?|]|]; simplify_eq/=. }
  unfold defineRoles in HR. rewrite Hloop in HR. injection HR as <-.
  simpl. unfold obj_get.
  assert (own_get (own o) r = None) as ->.
  { apply own_get_None. rewrite Hown. simpl. rewrite defined_keys_filter by done.
    intros [elems Hin]%defined_keys_elem. apply Hr.
    apply list_elem_of_fmap. by exists (r, Some elems). }
  rewrite Hp. unfold object_prototype_get.
  destruct (decide (r = PROTO)) as [|_]; [done|].
  unfold builtin_method.
  destruct (list_find _ OBJECT_PROTOTYPE_METHODS) as [[i name]|] eqn:Hfind.
  - apply list_find_Some in Hfind as (Hi & Hname & _). exfalso. apply Hmeth.
    apply list_elem_of_fmap. exists name. split; [done|].
    by eapply list_elem_of_lookup_2.
  - done.
Qed.

(** A name inherited from [Object.prototype] that the definitions do not
    list reads back as a function, whatever else the registry holds. *)
Lemma defineRoles_getPermissions_inherited (D : RoleDefinition) R r :
  defineRoles D = Ok R ->
  NoDup D.*1 ->
  PROTO ∉ defined_keys D ->
  r ∉ D.*1 ->
  r ∈ str <$> OBJECT_PROTOTYPE_METHODS ->
  ∃ name, getPermissions R r = VFunction name
          ∧ iterate (getPermissions R r) = Throw TypeError.
Proof.
  intros HR Hnd Hproto Hr Hmeth.
  destruct (defineRoles_loop_plain D D.*1 {| own := []; proto := ObjectPrototype |})
    as (o & Hloop & Hp & Hown); [done | done | | |].
  { intros k _ ?%elem_of_nil. done. }
  { intros k Hk [elems Hget] ->. apply Hproto.
    apply defined_keys_elem. exists elems. apply own_get_Some_elem.
    by destruct (own_get D PROTO) as [[?|]|]; simplify_eq/=. }
  unfold defineRoles in HR. rewrite Hloop in HR. injection HR as <-.
  simpl. unfold obj_get.
  assert (own_get (own o) r = None) as ->.
  { apply own_get_None. rewrite Hown. simpl. rewrite defined_keys_filter by done.
    intros [elems Hin]%defined_keys_elem. apply Hr.
    apply list_elem_of_fmap. by exists (r, Some elems). }
  rewrite Hp. unfold object_prototype_get.
  destruct (decide (r = PROTO)) as [-> | _].
  { exfalso. revert Hmeth.
    apply (proj1 (bool_decide_eq_false (PROTO ∈ str <$> OBJECT_PROTOTYPE_METHODS))).
    by vm_compute. }
  unfold builtin_method.
  destruct (list_find _ OBJECT_PROTOTYPE_METHODS) as [[i name]|] eqn:Hfind.
  - simpl. by eexists.
  - exfalso. apply list_elem_of_fmap in Hmeth as (name & -> & Hname).
    apply list_elem_of_lookup in Hname as [i Hi].
    eapply list_find_None in Hfind. rewrite Forall_forall in Hfind.
    apply (Hfind name); [by eapply list_elem_of_lookup_2 | done].
Qed.

(** A defined [__proto__] key followed by a [length] key: the second
    assignment meets the read-only [length] of the frozen array that is
    now the prototype, and [defineRoles] itself throws. *)
Lemma defineRoles_proto_then_length_throws :
  defineRoles [(str "__proto__", Some [str "user.read"]);
               (str "length", Some [str "user.update"])]
  = Throw TypeError.
Proof. by vm_compute. Qed.

(** ** Wildcard matching *)

Lemma code_join_nonempty ns parts :
  ns ≠ [] ->
  code_join ns parts = ns ++ concat ((fun part => str "." ++ part) <$> parts).
Proof.
  revert ns. induction parts as [|part parts IH]; intros ns Hns; simpl.
  - by rewrite app_nil_r.
  - rewrite decide_False by done. rewrite IH.
    + by rewrite <- !app_assoc.
    + by destruct ns.
Qed.

Lemma join_dot_cons s parts :
  join_dot (s :: parts) = s ++ concat ((fun part => str "." ++ part) <$> parts).
Proof.
  revert s. induction parts as [|part parts IH]; intros s.
  - simpl. by rewrite app_nil_r.
  - change (join_dot (s :: part :: parts))
      with (s ++ str "." ++ join_dot (part :: parts)).
    rewrite IH, fmap_cons. cbn [concat]. by rewrite <- app_assoc.
Qed.

(** The accumulator of the loop is the dot-joined prefix as long as the
    first segment is not empty. *)
Lemma code_join_join_dot s parts :
  s ≠ [] -> code_join [] (s :: parts) = join_dot (s :: parts).
Proof.
  intros Hs. rewrite join_dot_cons.
  change (code_join [] (s :: parts)) with (code_join s parts).
  by apply code_join_nonempty.
Qed.

Lemma namespace_loop_true perms parts ns :
  namespace_loop perms parts ns = true ↔
  ∃ n, (1 ≤ n < length parts)%nat
       ∧ code_join ns (take n parts) ++ str ".*" ∈ perms.
Proof.
  revert ns. induction parts as [|part rest IH]; intros ns.
  - simpl. split; [done | intros (n & ? & _); simpl in *; lia].
  - destruct rest as [|part' rest'].
    + simpl. split; [done | intros (n & ? & _); simpl in *; lia].
    + change (namespace_loop perms (part :: part' :: rest') ns)
        with (let ns' := if decide (ns = []) then part
                         else ns ++ str "." ++ part in
              if bool_decide (ns' ++ str ".*" ∈ perms) then true
              else namespace_loop perms (part' :: rest') ns').
      cbv zeta. set (ns' := if decide (ns = []) then part else _).
      case_bool_decide as Hin.
      * split; [|done]. intros _. exists 1%nat. simpl. split; [lia | done].
      * rewrite IH. split.
        -- intros (n & Hn & Hmem). exists (S n). split; [simpl in *; lia|].
           done.
        -- intros (n & Hn & Hmem). destruct n as [|[|n]]; [lia | done |].
           exists (S n). split; [simpl in *; lia | done].
Qed.

(** What [hasWildcardAccess] computes. *)
Lemma hasWildcardAccess_true perms p :
  hasWildcardAccess perms p = true ↔
  str "*" ∈ perms
  ∨ ∃ n, (1 ≤ n < length (split_on DOT p))%nat
         ∧ code_join [] (take n (split_on DOT p)) ++ str ".*" ∈ perms.
Proof.
  unfold hasWildcardAccess, WILDCARD_PERMISSION. case_bool_decide as Hstar.
  - split; [by left | done].
  - rewrite namespace_loop_true. split; [by right | by intros [? | ?]].
Qed.

Lemma proper_prefix_take {A} (q l : list A) :
  q ≠ [] ∧ q `prefix_of` l ∧ q ≠ l ↔
  ∃ n, (1 ≤ n < length l)%nat ∧ q = take n l.
Proof.
  split.
  - intros (Hne & [k ->] & Hneq). exists (length q). split.
    + rewrite length_app. destruct q; [done|]. destruct k.
      * by rewrite app_nil_r in Hneq.
      * simpl. lia.
    + by rewrite take_app_length.
  - intros (n & Hn & ->). split_and!.
    + destruct l, n; simpl in *; try done; lia.
    + apply prefix_take.
    + intros Heq. apply (f_equal length) in Heq.
      rewrite length_take in Heq. lia.
Qed.

Lemma spec_grants_b_true perms p :
  spec_grants_b perms p = true ↔ spec_grants perms p.
Proof.
  unfold spec_grants_b, spec_grants.
  rewrite !orb_true_iff, !bool_decide_eq_true, existsb_exists.
  split.
  - intros [[? | ?] | (n & Hn%in_seq & Hmem%bool_decide_eq_true)]; [by left | by right; left |].
    right; right. exists (take n (split_on DOT p)).
    destruct (proj2 (proper_prefix_take (take n (split_on DOT p)) (split_on DOT p)))
      as (H1 & H2 & H3); [exists n; split; [lia | done] |].
    by split_and!.
  - intros [? | [? | (q & Hne & Hpre & Hneq & Hmem)]]; [by left; left | by left; right |].
    right.
    destruct (proj1 (proper_prefix_take q (split_on DOT p))) as (n & Hn & ->); [done|].
    exists n. split; [apply in_seq; lia | by apply bool_decide_eq_true].
Qed.

Lemma split_on_head p :
  p ≠ [] -> head p ≠ Some DOT ->
  ∃ s rest, split_on DOT p = s :: rest ∧ s ≠ [].
Proof.
  destruct p as [|c p]; [done|]. intros _ Hhead. simpl.
  destruct (c =? DOT) eqn:Hc.
  - apply N.eqb_eq in Hc as ->. by destruct Hhead.
  - pose proof (split_on_nonempty DOT p).
    destruct (split_on DOT p) as [|piece pieces]; [done|]. by eexists _, _.
Qed.

(** On a request whose first segment is not empty, the code's test on a
    permission set is the claimed rule. *)
Lemma decide_on_spec perms p :
  p ≠ [] -> head p ≠ Some DOT ->
  decide_on perms p = spec_grants_b perms p.
Proof.
  intros Hp Hhead. destruct (split_on_head p Hp Hhead) as (s & rest & Hsplit & Hs).
  apply eq_true_iff_eq. unfold decide_on.
  rewrite orb_true_iff, bool_decide_eq_true, hasWildcardAccess_true.
  unfold spec_grants_b.
  rewrite !orb_true_iff, !bool_decide_eq_true, existsb_exists.
  assert (Hjoin : ∀ n, (1 ≤ n)%nat ->
            code_join [] (take n (split_on DOT p))
            = join_dot (take n (split_on DOT p))).
  { intros [|n] Hn; [lia|]. rewrite Hsplit. simpl take.
    by apply code_join_join_dot. }
  split.
  - intros [? | [? | (n & Hn & Hmem)]]; [by left; left | by left; right |].
    right. exists n. split; [apply in_seq; lia|].
    apply bool_decide_eq_true. rewrite <- Hjoin by lia. done.
  - intros [[? | ?] | (n & Hn%in_seq & Hmem%bool_decide_eq_true)];
      [by left | by right; left |].
    right; right. exists n. split; [lia|]. rewrite Hjoin by lia. done.
Qed.

Lemma elem_of_spec_effective_set u R x :
  x ∈ spec_effective_set u R ↔
  x ∈ default [] (permissions u)
  ∨ ∃ r, r ∈ default [] (roles u) ∧ x ∈ spec_role_permissions R r.
Proof.
  unfold spec_effective_set.
  rewrite elem_of_union, elem_of_list_to_set, elem_of_union_list.
  apply or_iff_compat_l. split.
  - intros (X & (r & -> & Hr)%list_elem_of_fmap & Hx).
    exists r. split; [done|]. by apply elem_of_list_to_set in Hx.
  - intros (r & Hr & Hx). eexists. split.
    + apply list_elem_of_fmap. by exists r.
    + by apply elem_of_list_to_set.
Qed.

(** Where the code and the claimed rule agree: the registry answers every
    role of the user with an array (the empty one for a role it does not
    have), the request is not blank and does not start with a dot. Then
    [canUser] returns exactly the claimed decision. *)
Lemma canUser_matches_spec u R p :
  (∀ r, r ∈ default [] (roles u) ->
        ∃ elems, getPermissions R r = VArray elems
                 ∧ (hasRole R r = false -> elems = [])) ->
  is_blank p = false ->
  head p ≠ Some DOT ->
  canUser (Present u) p R = Ok (spec_grants_b (spec_effective_set u R) p)
  ∧ (canUser (Present u) p R = Ok true ↔ spec_grants (spec_effective_set u R) p).
Proof.
  intros Hreg Hblank Hhead.
  assert (Hp : p ≠ []).
  { intros ->. by apply not_true_iff_false in Hblank. }
  assert (Hcan : canUser (Present u) p R
                 = Ok (spec_grants_b (spec_effective_set u R) p)).
  { rewrite canUser_present, Hblank.
    destruct (proj2 (collectUserPermissions_returns u R)) as [S HS].
    { intros r Hr. destruct (Hreg r Hr) as (elems & -> & _). by eexists. }
    rewrite HS. simpl. f_equal.
    assert (S = spec_effective_set u R) as ->.
    { apply set_eq. intros x.
      rewrite (collectUserPermissions_elem _ _ _ HS), elem_of_spec_effective_set.
      apply or_iff_compat_l. split.
      - intros (r & l & Hr & Hl & Hx). exists r. split; [done|].
        destruct (Hreg r Hr) as (elems & Hget & Hunknown).
        rewrite Hget in Hl. injection Hl as <-.
        unfold spec_role_permissions. rewrite Hget.
        destruct (hasRole R r); [done|]. rewrite Hunknown in Hx; done.
      - intros (r & Hr & Hx). destruct (Hreg r Hr) as (elems & Hget & _).
        exists r, elems. split_and!; [done | by rewrite Hget |].
        unfold spec_role_permissions in Hx. rewrite Hget in Hx.
        destruct (hasRole R r); [done | by apply elem_of_nil in Hx]. }
    by apply decide_on_spec. }
  split; [done|]. rewrite Hcan, <- spec_grants_b_true.
  split; [by intros [= ->] | by intros ->].
Qed.

(** ** Monotonicity *)

Lemma decide_on_mono perms perms' p :
  perms ⊆ perms' -> decide_on perms p = true -> decide_on perms' p = true.
Proof.
  intros Hsub. unfold decide_on.
  rewrite !orb_true_iff, !bool_decide_eq_true, !hasWildcardAccess_true.
  intros [? | [? | (n & Hn & Hmem)]].
  - left. by apply Hsub.
  - right; left. by apply Hsub.
  - right; right. exists n. split; [done | by apply Hsub].
Qed.

(** Adding roles or direct permissions keeps a grant, provided the
    registry answers each role of the larger user with something
    iterable. *)
Lemma canUser_monotone u u' R p :
  grants_included u u' ->
  (∀ r, r ∈ default [] (roles u') -> returns (iterate (getPermissions R r))) ->
  canUser (Present u) p R = Ok true ->
  canUser (Present u') p R = Ok true.
Proof.
  intros [Hroles Hperms] Hiter. rewrite !canUser_present.
  destruct (is_blank p); [done|].
  intros (S & HS & [= Hgrant])%bind_Ok.
  destruct (proj2 (collectUserPermissions_returns u' R) Hiter) as [S' HS'].
  rewrite HS'. simpl. f_equal. apply (decide_on_mono S S'); [|done].
  intros x. rewrite (collectUserPermissions_elem _ _ _ HS),
    (collectUserPermissions_elem _ _ _ HS').
  intros [Hx | (r & l & Hr & Hl & Hx)].
  - left. by apply Hperms.
  - right. exists r, l. split_and!; [by apply Hroles | done..].
Qed.

(** ** The code at the inputs where it leaves the specification *)

(** The registry of the empty definitions object, [defineRoles({})]. *)
Lemma createEmptyRegistry_returns :
  createEmptyRegistry = Ok (registry_of {| own := []; proto := ObjectPrototype |}).
Proof. reflexivity. Qed.

(** C1, at a request with a leading dot. A user whose only grant is the
    direct permission [a.*] asks for [.a.b] against the empty registry.
    The claimed rule denies: the proper prefixes of the segments
    ["", "a", "b"] give [.*] and [.a.*], and the effective set holds
    neither, nor the request, nor the global wildcard. The code grants:
    its accumulator is reset by the empty first segment and tests [a.*]. *)
Theorem canUser_leading_dot_granted :
  let u := user_of None (Some [str "a.*"]) in
  let R := registry_of {| own := []; proto := ObjectPrototype |} in
  defineRoles [] = Ok R
  ∧ is_blank (str ".a.b") = false
  ∧ spec_effective_set u R = {[ str "a.*" ]}
  ∧ ¬ spec_grants (spec_effective_set u R) (str ".a.b")
  ∧ canUser (Present u) (str ".a.b") R = Ok true.
Proof.
  intros u R. split_and!.
  - reflexivity.
  - by vm_compute.
  - apply set_eq. intros x. rewrite elem_of_spec_effective_set. simpl.
    rewrite elem_of_singleton, list_elem_of_singleton. split.
    + intros [? | (r & ?%elem_of_nil & _)]; done.
    + by left.
  - rewrite <- spec_grants_b_true. by vm_compute.
  - by vm_compute.
Qed.

(** C2, at a name inherited from [Object.prototype]. [constructor] is not
    a key of the empty definitions object, and [hasRole] says so, but
    [getPermissions] returns the inherited function, not an empty
    sequence. *)
Theorem getPermissions_inherited_name :
  let D : RoleDefinition := [] in
  let R := registry_of {| own := []; proto := ObjectPrototype |} in
  defineRoles D = Ok R
  ∧ (str "constructor" ∉ D.*1)
  ∧ hasRole R (str "constructor") = false
  ∧ getPermissions R (str "constructor")
    = VFunction "Object.prototype.constructor"
  ∧ getPermissions R (str "constructor") ≠ VArray [].
Proof.
  intros D R. split_and!.
  - reflexivity.
  - by intros ?%elem_of_nil.
  - reflexivity.
  - by vm_compute.
  - by vm_compute.
Qed.

(** C3, for a user who carries a role named like a property of
    [Object.prototype]. Against the empty registry, [canUser],
    [canUserAll], [canUserAny] and [checkPermission] all end in a
    [TypeError]: the inherited function is not iterable. *)
Theorem canUser_inherited_role_throws :
  let u := Present (user_of (Some [str "constructor"]) None) in
  let R := registry_of {| own := []; proto := ObjectPrototype |} in
  defineRoles [] = Ok R
  ∧ canUser u (str "user.read") R = Throw TypeError
  ∧ canUserAll u [str "user.read"] R = Throw TypeError
  ∧ canUserAny u [str "user.read"] R = Throw TypeError
  ∧ checkPermission u (str "user.read") R = Throw TypeError.
Proof. intros u R. split_and!; by vm_compute. Qed.

(** C9, for a definitions object with an own [__proto__] key (as
    [JSON.parse] builds). The key is defined, yet [getRoleNames] is empty
    and [hasRole] is false for it: the assignment went through the
    inherited setter and replaced the prototype of the backing object. *)
Theorem getRoleNames_drops_proto_key :
  let D : RoleDefinition := [(str "__proto__", Some [str "user.read"])] in
  let R := registry_of {| own := []; proto := FrozenArray [str "user.read"] |} in
  NoDup D.*1
  ∧ defined_keys D = [str "__proto__"]
  ∧ defineRoles D = Ok R
  ∧ getRoleNames R () = []
  ∧ hasRole R (str "__proto__") = false.
Proof.
  intros D R. split_and!; try by vm_compute.
  apply NoDup_singleton.
Qed.

(** C10, for a grant extended by a role named like a property of
    [Object.prototype]. The smaller user is granted through [*]; the
    larger user carries the same permission and one more role, and
    [canUser] throws instead of returning true. *)
Theorem canUser_extra_role_throws :
  let u := user_of None (Some [str "*"]) in
  let u' := user_of (Some [str "constructor"]) (Some [str "*"]) in
  let R := registry_of {| own := []; proto := ObjectPrototype |} in
  defineRoles [] = Ok R
  ∧ grants_included u u'
  ∧ is_blank (str "user.read") = false
  ∧ canUser (Present u) (str "user.read") R = Ok true
  ∧ canUser (Present u') (str "user.read") R = Throw TypeError.
Proof.
  intros u u' R. split_and!; try by vm_compute.
  split; simpl; [by intros x ?%elem_of_nil | done].
Qed.

(** ** The store: what the registry closes over *)

Section heap_facts.
Implicit Types (h : Heap.heap) (l o d fd : nat) (c : Heap.cell) (obj : object).

Lemma mutation_frozen_preserved h h' :
  Heap.mutation h h' -> Heap.frozen_preserved h h'.
Proof.
  intros [l c c' Hl Hc | c] l' c0 Hl' Hfrozen.
  - rewrite list_lookup_insert_ne; [done|]. intros ->. congruence.
  - by apply lookup_app_l_Some.
Qed.

Lemma mutations_frozen_preserved h h' :
  rtc Heap.mutation h h' -> Heap.frozen_preserved h h'.
Proof.
  induction 1 as [h | h h1 h2 Hstep _ IH]; [by intros l c|].
  intros l c Hl Hc. apply IH; [|done].
  by apply (mutation_frozen_preserved h h1).
Qed.

Lemma slot_is_preserved h h' s elems :
  Heap.frozen_preserved h h' -> Heap.slot_is h s elems -> Heap.slot_is h' s elems.
Proof. intros Hpres (l & -> & Hl). exists l. split; [done|]. by apply Hpres. Qed.

Lemma proto_is_preserved h h' hp (pr : prototype) :
  Heap.frozen_preserved h h' -> Heap.proto_is h hp pr -> Heap.proto_is h' hp pr.
Proof.
  intros Hpres. destruct hp, pr; simpl; try done. intros H. by apply Hpres.
Qed.

(** A frozen registry object survives whatever keeps frozen cells. *)
Lemma backs_frozen_preserved h h' fd obj :
  Heap.frozen_preserved h h' -> Heap.backs h fd true obj -> Heap.backs h' fd true obj.
Proof.
  intros Hpres (props & hp & Hfd & Hprops & Hproto).
  exists props, hp. split_and!.
  - by apply Hpres.
  - eapply Forall2_impl; [exact Hprops|]. intros kv kv' [? ?].
    split; [done|]. by eapply slot_is_preserved.
  - by eapply proto_is_preserved.
Qed.

Lemma related_keys {A B} (P : A -> B -> Prop)
  (ps : list (jsstring * A)) (ps' : list (jsstring * B)) :
  Forall2 (fun kv kv' => kv.1 = kv'.1 ∧ P kv.2 kv'.2) ps ps' ->
  ps.*1 = ps'.*1.
Proof.
  induction 1 as [|kv kv' ps ps' [Hk _] _ IH]; [done|].
  rewrite !fmap_cons. by rewrite Hk, IH.
Qed.

Lemma backs_keys h fd fz obj props hp :
  h !! fd = Some (Heap.CObject props hp fz) -> Heap.backs h fd fz obj ->
  props.*1 = (own obj).*1.
Proof.
  intros Hfd (props' & hp' & Hfd' & Hprops & _).
  rewrite Hfd in Hfd'. injection Hfd' as <- <-.
  by eapply related_keys.
Qed.

Lemma has_own_keys {A B} (ps : list (jsstring * A)) (ps' : list (jsstring * B)) key :
  ps.*1 = ps'.*1 -> has_own ps key = has_own ps' key.
Proof.
  intros Hkeys. apply eq_true_iff_eq. by rewrite !has_own_true, Hkeys.
Qed.

Lemma own_get_related {A B} (P : A -> B -> Prop)
  (ps : list (jsstring * A)) (ps' : list (jsstring * B)) key :
  Forall2 (fun kv kv' => kv.1 = kv'.1 ∧ P kv.2 kv'.2) ps ps' ->
  option_Forall2 P (own_get ps key) (own_get ps' key).
Proof.
  induction 1 as [|[k v] [k' v'] ps ps' [Hk Hv] _ IH]; simpl in *.
  - constructor.
  - subst k'. destruct (decide (k = key)); [by constructor | done].
Qed.

Lemma own_put_related {A B} (P : A -> B -> Prop)
  (ps : list (jsstring * A)) (ps' : list (jsstring * B)) key v v' :
  Forall2 (fun kv kv' => kv.1 = kv'.1 ∧ P kv.2 kv'.2) ps ps' ->
  P v v' ->
  Forall2 (fun kv kv' => kv.1 = kv'.1 ∧ P kv.2 kv'.2)
          (own_put ps key v) (own_put ps' key v').
Proof.
  intros Hps Hv.
  induction Hps as [|[k w] [k' w'] ps ps' [Hk Hw] Hrest IH]; simpl in *.
  - by repeat constructor.
  - subst k'. destruct (decide (k = key)).
    + by constructor.
    + by constructor.
Qed.

Lemma backs_get_property h fd fz obj role :
  Heap.backs h fd fz obj ->
  Heap.get_property h fd role = obj_get obj role.
Proof.
  intros (props & hp & Hfd & Hprops & Hproto).
  unfold Heap.get_property, obj_get. rewrite Hfd.
  destruct (own_get_related _ _ _ role Hprops) as [s elems (l & -> & Hl) |].
  - simpl. by rewrite Hl.
  - destruct hp as [|a], (proto obj) as [|elems]; simpl in Hproto; try done.
    by rewrite Hproto.
Qed.

(** The three methods read the pure object off the heap. *)
Lemma backs_reads h fd fz obj :
  Heap.backs h fd fz obj ->
  ∀ role,
    Heap.getPermissions h fd role = getPermissions (registry_of obj) role
    ∧ Heap.hasRole h fd role = hasRole (registry_of obj) role
    ∧ Heap.getRoleNames h fd = getRoleNames (registry_of obj) ().
Proof.
  intros Hb role. pose proof Hb as (props & hp & Hfd & Hprops & Hproto).
  pose proof (backs_keys _ _ _ _ _ _ Hfd Hb) as Hkeys.
  unfold Heap.getPermissions, Heap.hasRole, Heap.getRoleNames.
  rewrite (backs_get_property _ _ _ _ _ Hb), Hfd. simpl.
  split_and!; [done | by apply has_own_keys | done].
Qed.

Lemma slot_is_kept h h' fd props hp fz s elems :
  h !! fd = Some (Heap.CObject props hp fz) ->
  Heap.cells_kept fd h h' -> Heap.slot_is h s elems -> Heap.slot_is h' s elems.
Proof.
  intros Hfd Hkept (l & -> & Hl). exists l. split; [done|].
  apply Hkept; [|done]. intros ->. congruence.
Qed.

Lemma proto_is_kept h h' fd props hp0 fz hp (pr : prototype) :
  h !! fd = Some (Heap.CObject props hp0 fz) ->
  Heap.cells_kept fd h h' -> Heap.proto_is h hp pr -> Heap.proto_is h' hp pr.
Proof.
  intros Hfd Hkept. destruct hp, pr; simpl; try done.
  intros Hl. apply Hkept; [|done]. intros ->. congruence.
Qed.

Lemma snapshot_slot_kept h h' fd props hp fz s v :
  h !! fd = Some (Heap.CObject props hp fz) ->
  Heap.cells_kept fd h h' ->
  Heap.snapshot_slot h s = Some v -> Heap.snapshot_slot h' s = Some v.
Proof.
  intros Hfd Hkept. destruct s as [|l]; simpl; [done|].
  destruct (h !! l) as [[elems fz'|]|] eqn:Hl; try done.
  intros [= <-].
  assert (h' !! l = Some (Heap.CArray elems fz')) as ->; [|done].
  apply Hkept; [|done]. intros ->. congruence.
Qed.

Lemma defs_view_kept h h' d fd props hp fz D :
  d ≠ fd ->
  h !! fd = Some (Heap.CObject props hp fz) ->
  Heap.cells_kept fd h h' ->
  Heap.defs_view h d D -> Heap.defs_view h' d D.
Proof.
  intros Hne Hfd Hkept (dprops & dhp & dfz & Hd & Hrel).
  exists dprops, dhp, dfz. split; [by apply Hkept|].
  eapply Forall2_impl; [exact Hrel|]. intros kv kv' [? ?].
  split; [done|].
  eapply snapshot_slot_kept; [exact Hfd | exact Hkept | done].
Qed.

Lemma cells_kept_app fd h c : Heap.cells_kept fd h (h ++ [c]).
Proof. intros l c0 _ Hl. by apply lookup_app_l_Some. Qed.

Lemma cells_kept_insert fd h c : Heap.cells_kept fd h (<[fd := c]> h).
Proof. intros l c0 Hne Hl. by rewrite list_lookup_insert_ne. Qed.

Lemma backs_app h fd fz obj c :
  Heap.backs h fd fz obj -> Heap.backs (h ++ [c]) fd fz obj.
Proof.
  intros (props & hp & Hfd & Hprops & Hproto). exists props, hp. split_and!.
  - by apply lookup_app_l_Some.
  - eapply Forall2_impl; [exact Hprops|]. intros kv kv' [? ?].
    split; [done|]. eapply slot_is_kept; [exact Hfd | apply cells_kept_app | done].
  - eapply proto_is_kept; [exact Hfd | apply cells_kept_app | done].
Qed.

(** Replacing the registry's own object by one that stands for [obj']. *)
Lemma backs_insert h fd props hp props' hp' obj' :
  h !! fd = Some (Heap.CObject props hp false) ->
  Forall2 (fun kv kv' => kv.1 = kv'.1 ∧ Heap.slot_is h kv.2 kv'.2)
          props' (own obj') ->
  Heap.proto_is h hp' (proto obj') ->
  Heap.backs (<[fd := Heap.CObject props' hp' false]> h) fd false obj'.
Proof.
  intros Hfd Hprops Hproto. exists props', hp'. split_and!.
  - apply list_lookup_insert_eq. by eapply lookup_lt_Some.
  - eapply Forall2_impl; [exact Hprops|]. intros kv kv' [? ?].
    split; [done|].
    eapply slot_is_kept; [exact Hfd | apply cells_kept_insert | done].
  - eapply proto_is_kept; [exact Hfd | apply cells_kept_insert | done].
Qed.

(** One assignment [frozenDefinitions[role] = copy] on the heap against
    the same assignment on the pure object. *)
Lemma set_property_refines h fd obj role copy (elems : list jsstring) :
  Heap.backs h fd false obj ->
  h !! copy = Some (Heap.CArray elems true) ->
  match obj_set obj role elems with
  | Ok obj' =>
      ∃ h', Heap.set_property h fd role copy = Ok h'
            ∧ Heap.backs h' fd false obj'
            ∧ Heap.cells_kept fd h h'
  | Throw e => Heap.set_property h fd role copy = Throw e
  end.
Proof.
  intros Hb Hcopy. pose proof Hb as (props & hp & Hfd & Hprops & Hproto).
  pose proof (related_keys _ _ _ Hprops) as Hkeys.
  assert (Hslot : Heap.slot_is h (Heap.SArray copy) elems) by by exists copy.
  assert (Hadded :
    ∃ h', Ok (<[fd := Heap.CObject (own_put props role (Heap.SArray copy)) hp false]> h)
          = Ok h'
          ∧ Heap.backs h' fd false
              {| own := own_put (own obj) role elems; proto := proto obj |}
          ∧ Heap.cells_kept fd h h').
  { eexists. split_and!; [done | | apply cells_kept_insert].
    eapply backs_insert; [exact Hfd | | done].
    by apply (own_put_related (Heap.slot_is h)). }
  unfold obj_set, Heap.set_property. rewrite Hfd.
  rewrite <- (has_own_keys props (own obj) role Hkeys).
  destruct (has_own props role); [done|].
  destruct (decide (role = PROTO)).
  { eexists. split_and!; [done | | apply cells_kept_insert].
    eapply backs_insert; [exact Hfd | done | done]. }
  destruct hp as [|a], (proto obj) as [|aelems] eqn:Hp; simpl in Hproto;
    try done.
  rewrite Hproto. by destruct (array_own_get aelems role).
Qed.

Lemma defs_view_slot h d D role :
  Heap.defs_view h d D ->
  Heap.snapshot_slot h (Heap.get_slot h d role)
  = Some (mjoin (own_get D role)).
Proof.
  intros (props & hp & fz & Hd & Hrel). unfold Heap.get_slot. rewrite Hd.
  by destruct (own_get_related
                 (fun s v => Heap.snapshot_slot h s = Some v) _ _ role Hrel).
Qed.

(** The loop on the heap against the loop on the pure object. *)
Lemma defineRoles_loop_refines d fd (D : RoleDefinition) keys h obj :
  d ≠ fd ->
  Heap.defs_view h d D ->
  Heap.backs h fd false obj ->
  match defineRoles_loop D keys obj with
  | Ok obj' =>
      ∃ h', Heap.defineRoles_loop d keys fd h = Ok h'
            ∧ Heap.backs h' fd false obj'
  | Throw e => Heap.defineRoles_loop d keys fd h = Throw e
  end.
Proof.
  intros Hne. revert h obj.
  induction keys as [|role keys IH]; intros h obj Hview Hb; simpl.
  - by exists h.
  - pose proof (defs_view_slot _ _ _ role Hview) as Hslot.
    destruct (Heap.get_slot h d role) as [|l]; simpl in Hslot.
    + injection Hslot as <-. by apply IH.
    + unfold Heap.read_array.
      destruct (h !! l) as [[elems fz|]|] eqn:Hl; try done.
      injection Hslot as <-. simpl.
      pose proof Hb as (props & hp & Hfd & _).
      set (h1 := h ++ [Heap.CArray elems true]).
      assert (Hb1 : Heap.backs h1 fd false obj) by by apply backs_app.
      assert (Hcopy : h1 !! length h = Some (Heap.CArray elems true)).
      { unfold h1. by rewrite lookup_app_r, Nat.sub_diag. }
      pose proof (set_property_refines h1 fd obj role (length h) elems Hb1 Hcopy)
        as Hset.
      destruct (obj_set obj role elems) as [obj1|e]; simpl.
      * destruct Hset as (h2 & -> & Hb2 & Hkept). simpl.
        apply IH; [|done].
        pose proof Hb1 as (props1 & hp1 & Hfd1 & _).
        eapply defs_view_kept; [done | exact Hfd1 | exact Hkept |].
        eapply defs_view_kept; [done | exact Hfd | apply cells_kept_app | done].
      * by rewrite Hset.
Qed.

(** The heap loop on its own: whatever definitions object it runs over,
    what it leaves at [fd] stands for some pure object. *)
Lemma defineRoles_loop_backs d fd keys h obj h' :
  Heap.backs h fd false obj ->
  Heap.defineRoles_loop d keys fd h = Ok h' ->
  ∃ obj', Heap.backs h' fd false obj'.
Proof.
  revert h obj. induction keys as [|role keys IH]; intros h obj Hb; simpl.
  - intros [= <-]. by exists obj.
  - destruct (Heap.get_slot h d role) as [|l]; [by apply (IH h obj)|].
    intros (elems & Hread & Hrest)%bind_Ok. simpl in Hrest.
    apply bind_Ok in Hrest as (h2 & Hset & Hloop).
    set (h1 := h ++ [Heap.CArray elems true]) in *.
    assert (Hb1 : Heap.backs h1 fd false obj) by by apply backs_app.
    assert (Hcopy : h1 !! length h = Some (Heap.CArray elems true)).
    { unfold h1. by rewrite lookup_app_r, Nat.sub_diag. }
    pose proof (set_property_refines h1 fd obj role (length h) elems Hb1 Hcopy)
      as Href.
    destruct (obj_set obj role elems) as [obj1|e].
    + destruct Href as (h2' & Hset' & Hb2 & _).
      rewrite Hset in Hset'. injection Hset' as <-. by eapply IH.
    + congruence.
Qed.

Lemma freeze_backs h fd obj :
  Heap.backs h fd false obj ->
  ∃ h', Heap.freeze h fd = Ok h' ∧ Heap.backs h' fd true obj.
Proof.
  intros (props & hp & Hfd & Hprops & Hproto).
  unfold Heap.freeze. rewrite Hfd. eexists. split; [done|].
  exists props, hp. split_and!.
  - apply list_lookup_insert_eq. by eapply lookup_lt_Some.
  - eapply Forall2_impl; [exact Hprops|]. intros kv kv' [? ?].
    split; [done|].
    eapply slot_is_kept; [exact Hfd | apply cells_kept_insert | done].
  - eapply proto_is_kept; [exact Hfd | apply cells_kept_insert | done].
Qed.

Lemma backs_empty h :
  Heap.backs (h ++ [Heap.CObject [] Heap.PObject false]) (length h) false
             {| own := []; proto := ObjectPrototype |}.
Proof.
  exists [], Heap.PObject. split_and!; [|constructor|done].
  by rewrite lookup_app_r, Nat.sub_diag.
Qed.

(** After construction the registry's object is frozen and stands for a
    pure object built from frozen copies. *)
Lemma defineRoles_backs h d h1 fd :
  Heap.defineRoles h d = Ok (h1, fd) -> ∃ obj, Heap.backs h1 fd true obj.
Proof.
  unfold Heap.defineRoles. simpl.
  intros (keys & _ & (h' & Hloop & (h'' & Hfreeze & [= <- <-])%bind_Ok)%bind_Ok)%bind_Ok.
  destruct (defineRoles_loop_backs _ _ _ _ _ _ (backs_empty h) Hloop)
    as [obj Hb].
  destruct (freeze_backs _ _ _ Hb) as (h2 & Hfreeze' & Hb2).
  rewrite Hfreeze in Hfreeze'. injection Hfreeze' as <-. by exists obj.
Qed.
End heap_facts.

Lemma snapshot_defs_view (h : Heap.heap) (d : nat) (D : RoleDefinition) :
  Heap.snapshot h d = Some D -> Heap.defs_view h d D.
Proof.
  unfold Heap.snapshot.
  destruct (h !! d) as [[|props hp fz]|] eqn:Hd; try done.
  intros Hmap%mapM_Some. exists props, hp, fz. split; [done|].
  eapply Forall2_impl; [exact Hmap|]. intros [k s] [k' v]. simpl.
  destruct (Heap.snapshot_slot h s); simpl; [|done]. by intros [= -> ->].
Qed.

(** On a definitions object that reads as [D], the heap run of
    [defineRoles] follows the pure loop: both throw, or the frozen object
    the registry closes over stands for the pure loop's result. *)
Lemma defineRoles_refines_backs (h : Heap.heap) (d : nat) (D : RoleDefinition) :
  Heap.snapshot h d = Some D ->
  match defineRoles_loop D D.*1 {| own := []; proto := ObjectPrototype |} with
  | Ok obj =>
      ∃ h1, Heap.defineRoles h d = Ok (h1, length h)
            ∧ Heap.backs h1 (length h) true obj
  | Throw e => Heap.defineRoles h d = Throw e
  end.
Proof.
  intros Hview%snapshot_defs_view.
  pose proof Hview as (props & hp & fz & Hd & Hrel).
  pose proof (related_keys
                (fun s v => Heap.snapshot_slot h s = Some v) _ _ Hrel) as Hkeys.
  assert (Hne : d ≠ length h).
  { apply lookup_lt_Some in Hd. lia. }
  set (h0 := h ++ [Heap.CObject [] Heap.PObject false]).
  assert (Hview0 : Heap.defs_view h0 d D).
  { unfold h0. exists props, hp, fz. split; [by apply lookup_app_l_Some|].
    eapply Forall2_impl; [exact Hrel|]. intros [k s] [k' v] [? Hs].
    split; [done|]. simpl in *. destruct s as [|l]; [done|]. simpl in *.
    destruct (h !! l) as [[elems fz'|]|] eqn:Hl; try done.
    by rewrite (lookup_app_l_Some _ _ _ _ Hl). }
  pose proof (defineRoles_loop_refines d (length h) D D.*1 h0
                {| own := []; proto := ObjectPrototype |} Hne Hview0
                (backs_empty h)) as Hloop.
  assert (Hkeys0 : Heap.object_keys h0 d = Ok D.*1).
  { unfold Heap.object_keys, h0.
    by rewrite (lookup_app_l_Some _ _ _ _ Hd), Hkeys. }
  unfold Heap.defineRoles. simpl. fold h0. rewrite Hkeys0. simpl.
  destruct (defineRoles_loop D D.*1 _) as [obj|e]; simpl.
  - destruct Hloop as (h' & -> & Hb). simpl.
    destruct (freeze_backs _ _ _ Hb) as (h1 & -> & Hb1). simpl.
    by exists h1.
  - by rewrite Hloop.
Qed.

(** The heap model and the pure model of [defineRoles] agree: on a
    definitions object that reads as [D], both throw, or both return and
    the three methods of the heap registry answer as the pure registry
    does. *)
Lemma defineRoles_refines (h : Heap.heap) (d : nat) (D : RoleDefinition) :
  Heap.snapshot h d = Some D ->
  match defineRoles D with
  | Ok R =>
      ∃ h1 fd, Heap.defineRoles h d = Ok (h1, fd)
               ∧ ∀ role,
                   Heap.getPermissions h1 fd role = getPermissions R role
                   ∧ Heap.hasRole h1 fd role = hasRole R role
                   ∧ Heap.getRoleNames h1 fd = getRoleNames R ()
  | Throw e => Heap.defineRoles h d = Throw e
  end.
Proof.
  intros Hsnap. pose proof (defineRoles_refines_backs h d D Hsnap) as Href.
  unfold defineRoles.
  destruct (defineRoles_loop D D.*1 _) as [obj|e]; simpl; [|done].
  destruct Href as (h1 & Hdef & Hb). exists h1, (length h).
  split; [done|]. exact (backs_reads _ _ _ _ Hb).
Qed.


(** A definitions object that lists each key once and has no defined
    [__proto__] entry is accepted. *)
Lemma defineRoles_heap_returns (h : Heap.heap) (d : nat) (D : RoleDefinition) :
  Heap.snapshot h d = Some D ->
  NoDup D.*1 ->
  PROTO ∉ defined_keys D ->
  ∃ h1 fd, Heap.defineRoles h d = Ok (h1, fd).
Proof.
  intros Hsnap Hnd Hproto.
  pose proof (defineRoles_refines h d D Hsnap) as Href.
  destruct (defineRoles_role_names D Hnd Hproto) as (R & HR & _).
  rewrite HR in Href. destruct Href as (h1 & fd & Hdef & _). by exists h1, fd.
Qed.

(** C8. The registry built by [defineRoles] holds copies: whatever the
    caller writes afterwards to cells that are not frozen (the elements of
    the original permission arrays, the properties of the definitions
    object itself, new objects), [getPermissions], [hasRole] and
    [getRoleNames] of the registry answer as they did right after
    construction. *)
Theorem defineRoles_defensive_copy (h : Heap.heap) (d : nat)
  (h1 h2 : Heap.heap) (fd : nat) :
  Heap.defineRoles h d = Ok (h1, fd) ->
  rtc Heap.mutation h1 h2 ->
  ∀ role,
    Heap.getPermissions h2 fd role = Heap.getPermissions h1 fd role
    ∧ Heap.hasRole h2 fd role = Heap.hasRole h1 fd role
    ∧ Heap.getRoleNames h2 fd = Heap.getRoleNames h1 fd.
Proof.
  intros [obj Hb]%defineRoles_backs Hmut%mutations_frozen_preserved role.
  pose proof (backs_frozen_preserved _ _ _ _ Hmut Hb) as Hb2.
  destruct (backs_reads _ _ _ _ Hb role) as (-> & -> & ->).
  exact (backs_reads _ _ _ _ Hb2 role).
Qed.

(** The caller overwrites the only element of the original array with the
    global wildcard and empties the definitions object; the registry still
    answers [user.read] for [admin]. *)
Lemma defineRoles_defensive_copy_witness :
  let h := [Heap.CArray [str "user.read"] false;
            Heap.CObject [(str "admin", Heap.SArray 0%nat)] Heap.PObject false] in
  let h1 := h ++ [Heap.CObject [(str "admin", Heap.SArray 3%nat)] Heap.PObject true;
                  Heap.CArray [str "user.read"] true] in
  let h2 := <[1%nat := Heap.CObject [] Heap.PObject false]>
              (<[0%nat := Heap.CArray [str "*"] false]> h1) in
  Heap.defineRoles h 1%nat = Ok (h1, 2%nat)
  ∧ rtc Heap.mutation h1 h2
  ∧ Heap.read_array h2 0%nat = Ok [str "*"]
  ∧ Heap.getPermissions h2 2%nat (str "admin") = VArray [str "user.read"]
  ∧ Heap.getRoleNames h2 2%nat = [str "admin"].
Proof.
  intros h h1 h2.
  assert (Hdef : Heap.defineRoles h 1%nat = Ok (h1, 2%nat)) by reflexivity.
  assert (Hmut : rtc Heap.mutation h1 h2).
  { eapply rtc_l.
    - by apply (Heap.mutation_write h1 0%nat (Heap.CArray [str "user.read"] false)
                  (Heap.CArray [str "*"] false)).
    - eapply rtc_l; [|apply rtc_refl].
      by apply (Heap.mutation_write _ 1%nat
                  (Heap.CObject [(str "admin", Heap.SArray 0%nat)] Heap.PObject false)
                  (Heap.CObject [] Heap.PObject false)). }
  split_and!; [done | done | reflexivity | |].
  - rewrite (proj1 (defineRoles_defensive_copy h 1%nat h1 h2 2%nat Hdef Hmut
                      (str "admin"))).
    reflexivity.
  - rewrite (proj2 (proj2 (defineRoles_defensive_copy h 1%nat h1 h2 2%nat Hdef Hmut
                             (str "admin")))).
    reflexivity.
Defined.

(** ** Totality where the registry keeps its promise *)

(** When the registry answers each role of the user with something
    iterable, [canUser] returns. *)
Lemma canUser_returns nu p R :
  (∀ u r, nu = Present u -> r ∈ default [] (roles u) ->
          returns (iterate (getPermissions R r))) ->
  returns (canUser nu p R).
Proof.
  intros Hiter. destruct nu as [| |u]; [by eexists..|].
  rewrite canUser_present. destruct (is_blank p); [by eexists|].
  destruct (proj2 (collectUserPermissions_returns u R)) as [S ->].
  - intros r Hr. by apply (Hiter u).
  - by eexists.
Qed.

(** ** Instances *)

(** A user who holds the global wildcard asks for three spaces. *)
Lemma canUser_blank_denied_witness :
  canUser (Present (user_of None (Some [str "*"]))) (str "   ")
          (registry_of {| own := []; proto := ObjectPrototype |})
  = Ok false.
Proof.
  apply (canUser_blank_denied (user_of None (Some [str "*"]))
           (registry_of {| own := []; proto := ObjectPrototype |})
           (str "   ")).
  right. repeat constructor.
Defined.

(** A user who holds [a.*] asks for any of [b.read] and [a.read]. *)
Lemma canUserAll_canUserAny_spec_witness :
  canUserAny (Present (user_of None (Some [str "a.*"])))
             [str "b.read"; str "a.read"]
             (registry_of {| own := []; proto := ObjectPrototype |})
  = Ok true.
Proof.
  apply (proj2 (canUserAll_canUserAny_spec
                  (Present (user_of None (Some [str "a.*"])))
                  (registry_of {| own := []; proto := ObjectPrototype |})
                  [str "b.read"; str "a.read"])); [done|].
  exists (str "a.read"). split; [right; left | by vm_compute].
Defined.

(** * Further properties of the engine *)

Lemma canUserAny_loop_no_user ps R :
  canUserAny_loop Null ps R = Ok false
  ∧ canUserAny_loop Undefined ps R = Ok false.
Proof. induction ps as [|p ps [IH1 IH2]]; simpl; by split. Qed.

(** Without a user context (null or undefined), [canUserAll] and
    [canUserAny] return false for every list and every registry; the
    registry is never consulted. *)
Theorem canUserAll_canUserAny_no_user (ps : list jsstring) (R : RoleRegistry) :
  canUserAll Null ps R = Ok false
  ∧ canUserAll Undefined ps R = Ok false
  ∧ canUserAny Null ps R = Ok false
  ∧ canUserAny Undefined ps R = Ok false.
Proof.
  unfold canUserAll, canUserAny. destruct ps as [|p ps]; [done|].
  change (length (p :: ps) =? 0)%nat with false. cbv iota.
  split_and!; try done; apply canUserAny_loop_no_user.
Qed.

(** With every role iterable, [canUser] on a request that is not blank
    returns the code's test on a set that holds exactly what the user
    holds. *)
Lemma canUser_decide_on u R p :
  is_blank p = false ->
  (∀ r, r ∈ default [] (roles u) -> returns (iterate (getPermissions R r))) ->
  ∃ S, collectUserPermissions u R = Ok S
       ∧ canUser (Present u) p R = Ok (decide_on S p)
       ∧ ∀ x, x ∈ S ↔ holds u R x.
Proof.
  intros Hblank Hiter.
  destruct (proj2 (collectUserPermissions_returns u R) Hiter) as [S HS].
  exists S. split_and!; [done | |].
  - by rewrite canUser_present, Hblank, HS.
  - intros x. exact (collectUserPermissions_elem _ _ _ HS x).
Qed.

(** What [canUser] computes. For a request that is not blank and a user
    whose roles the registry answers with iterables, [canUser] returns,
    and it returns true exactly when the user holds the request itself,
    or [*], or [ns.*] for a namespace [ns] that the loop builds from the
    first [n] segments, [n] below the number of segments. *)
Theorem canUser_granted_iff (u : UserContext) (R : RoleRegistry) (p : jsstring) :
  is_blank p = false ->
  (∀ r, r ∈ default [] (roles u) -> returns (iterate (getPermissions R r))) ->
  ∃ b, canUser (Present u) p R = Ok b
       ∧ (b = true ↔
          holds u R p
          ∨ holds u R (str "*")
          ∨ ∃ n, (1 ≤ n < length (split_on DOT p))%nat
                 ∧ holds u R (code_join [] (take n (split_on DOT p)) ++ str ".*")).
Proof.
  intros Hblank Hiter.
  destruct (canUser_decide_on u R p Hblank Hiter) as (S & _ & Hcan & Hholds).
  exists (decide_on S p). split; [done|].
  unfold decide_on.
  rewrite orb_true_iff, bool_decide_eq_true, hasWildcardAccess_true.
  rewrite <- !Hholds. split.
  - intros [? | [? | (n & Hn & Hmem)]]; [by left | by right; left |].
    right; right. exists n. by rewrite <- Hholds.
  - intros [? | [? | (n & Hn & Hmem)]]; [by left | by right; left |].
    right; right. exists n. by rewrite Hholds.
Qed.

Lemma canUser_granted_iff_witness :
  ∃ b, canUser (Present (user_of None (Some [str "report.*"])))
               (str "report.admin.export")
               (registry_of {| own := []; proto := ObjectPrototype |}) = Ok b.
Proof.
  destruct (canUser_granted_iff (user_of None (Some [str "report.*"]))
              (registry_of {| own := []; proto := ObjectPrototype |})
              (str "report.admin.export")) as (b & Hb & _).
  - by vm_compute.
  - intros r Hr. simpl in Hr. by apply elem_of_nil in Hr.
  - by exists b.
Defined.











(** Only which roles and which direct permissions a user carries matters,
    not their order or repetition: two users with the same roles and the
    same direct permissions get the same answer from [canUser], a thrown
    error included. *)
Theorem canUser_same_grants (u u' : UserContext) (R : RoleRegistry)
  (p : jsstring) :
  (∀ r, r ∈ default [] (roles u) ↔ r ∈ default [] (roles u')) ->
  (∀ x, x ∈ default [] (permissions u) ↔ x ∈ default [] (permissions u')) ->
  canUser (Present u) p R = canUser (Present u') p R.
Proof.
  intros Hroles Hperms. rewrite !canUser_present.
  destruct (is_blank p); [done|].
  destruct (collectUserPermissions u R) as [S|[]] eqn:HS,
           (collectUserPermissions u' R) as [S'|[]] eqn:HS'; simpl.
  - f_equal. f_equal. apply set_eq. intros x.
    rewrite (collectUserPermissions_elem _ _ _ HS x),
            (collectUserPermissions_elem _ _ _ HS' x).
    rewrite Hperms. apply or_iff_compat_l.
    split; intros (r & l & Hr & H); exists r, l; (split; [by apply Hroles | done]).
  - assert (Hret : returns (collectUserPermissions u' R)).
    { apply collectUserPermissions_returns. intros r Hr.
      apply (proj1 (collectUserPermissions_returns u R)); [by eexists|].
      by apply Hroles. }
    destruct Hret as [? Hret]. congruence.
  - assert (Hret : returns (collectUserPermissions u R)).
    { apply collectUserPermissions_returns. intros r Hr.
      apply (proj1 (collectUserPermissions_returns u' R)); [by eexists|].
      by apply Hroles. }
    destruct Hret as [? Hret]. congruence.
  - done.
Qed.

Lemma canUser_same_grants_witness :
  canUser (Present (user_of (Some [str "a"; str "b"; str "a"]) (Some [str "x"])))
          (str "user.read")
          (registry_of {| own := []; proto := ObjectPrototype |})
  = canUser (Present (user_of (Some [str "b"; str "a"]) (Some [str "x"; str "x"])))
            (str "user.read")
            (registry_of {| own := []; proto := ObjectPrototype |}).
Proof.
  apply canUser_same_grants; intros x; simpl;
    rewrite ?elem_of_cons, ?elem_of_nil; tauto.
Defined.

(** Holding all of a list implies holding any of it: when [canUserAll]
    returns true, so does [canUserAny] on the same arguments. *)
Theorem canUserAll_implies_canUserAny (nu : nullable UserContext)
  (ps : list jsstring) (R : RoleRegistry) :
  canUserAll nu ps R = Ok true -> canUserAny nu ps R = Ok true.
Proof.
  unfold canUserAll, canUserAny. destruct ps as [|p ps]; [done|].
  change (length (p :: ps) =? 0)%nat with false. cbv iota.
  intros H. apply canUserAny_loop_true. exists p. split; [by left|].
  apply (proj1 (canUserAll_loop_true nu (p :: ps) R) H). by left.
Qed.

Lemma canUserAll_implies_canUserAny_witness :
  canUserAny (Present (user_of None (Some [str "user.*"])))
             [str "user.read"; str "user.update"]
             (registry_of {| own := []; proto := ObjectPrototype |}) = Ok true.
Proof.
  apply canUserAll_implies_canUserAny. by vm_compute.
Defined.

(** Requiring two non-empty lists together is requiring each: [canUserAll]
    returns true on [ps ++ qs] exactly when it returns true on [ps] and
    on [qs]. *)
Theorem canUserAll_app (nu : nullable UserContext) (ps qs : list jsstring)
  (R : RoleRegistry) :
  ps ≠ [] -> qs ≠ [] ->
  canUserAll nu (ps ++ qs) R = Ok true ↔
  canUserAll nu ps R = Ok true ∧ canUserAll nu qs R = Ok true.
Proof.
  intros Hps Hqs. unfold canUserAll.
  destruct ps as [|p ps]; [done|]. destruct qs as [|q qs]; [done|].
  change (length ((p :: ps) ++ q :: qs) =? 0)%nat with false.
  change (length (p :: ps) =? 0)%nat with false.
  change (length (q :: qs) =? 0)%nat with false. cbv iota.
  rewrite !canUserAll_loop_true. split.
  - intros H. split; intros x Hx; apply H; apply elem_of_app; auto.
  - intros [H1 H2] x [Hx | Hx]%elem_of_app; auto.
Qed.

Lemma canUserAll_app_witness :
  canUserAll (Present (user_of None (Some [str "user.*"; str "report.view"])))
             ([str "user.read"] ++ [str "report.view"])
             (registry_of {| own := []; proto := ObjectPrototype |}) = Ok true.
Proof.
  apply canUserAll_app; [done | done |]. split; by vm_compute.
Defined.

(** Accepting any of two lists is accepting any of either: [canUserAny]
    returns true on [ps ++ qs] exactly when it returns true on [ps] or on
    [qs] (an empty list never does). *)
Theorem canUserAny_app (nu : nullable UserContext) (ps qs : list jsstring)
  (R : RoleRegistry) :
  canUserAny nu (ps ++ qs) R = Ok true ↔
  canUserAny nu ps R = Ok true ∨ canUserAny nu qs R = Ok true.
Proof.
  assert (Hany : ∀ l, canUserAny nu l R = Ok true ↔
                      ∃ x, x ∈ l ∧ canUser nu x R = Ok true).
  { intros l. unfold canUserAny. destruct l as [|x l].
    - simpl. split; [done | by intros (x & ?%elem_of_nil & _)].
    - change (length (x :: l) =? 0)%nat with false. cbv iota.
      apply canUserAny_loop_true. }
  rewrite !Hany. split.
  - intros (x & [Hx | Hx]%elem_of_app & H); [left | right]; by exists x.
  - intros [(x & Hx & H) | (x & Hx & H)]; exists x;
      (split; [apply elem_of_app; auto | done]).
Qed.

(** The reason of [checkPermission] tells the cause of a denial: it is
    the no-user text exactly when the user context is null or undefined
    (a blank request does not change that), the empty-permission text
    exactly when a user is present and the request is blank, and otherwise
    it quotes the request as granted or denied according to [allowed]. *)
Theorem checkPermission_reason_cause (nu : nullable UserContext)
  (p : jsstring) (R : RoleRegistry) (res : PermissionCheckResult) :
  checkPermission nu p R = Ok res ->
  (reason res = Some (str "No user context provided")
   ↔ nu = Null ∨ nu = Undefined)
  ∧ (reason res = Some (str "Empty permission requested")
     ↔ (∃ u, nu = Present u) ∧ is_blank p = true)
  ∧ ((∃ u, nu = Present u) ∧ is_blank p = false ->
     reason res
     = Some (str "Permission " ++ QUOTE :: p ++ QUOTE ::
             (if allowed res then str " granted" else str " denied"))).
Proof.
  unfold checkPermission. destruct nu as [| |u].
  - intros [= <-]. simpl. split_and!.
    + split; [by left | done].
    + split; [done | by intros [[u [=]] _]].
    + by intros [[u [=]] _].
  - intros [= <-]. simpl. split_and!.
    + split; [by right | done].
    + split; [done | by intros [[u [=]] _]].
    + by intros [[u [=]] _].
  - destruct (is_blank p) eqn:Hblank.
    + intros [= <-]. simpl. split_and!.
      * split; [done | by intros [[=] | [=]]].
      * split; [by eauto | done].
      * by intros [_ [=]].
    + intros (granted & _ & [= <-])%bind_Ok. simpl. split_and!.
      * split; [by destruct granted | by intros [[=] | [=]]].
      * split; [by destruct granted | by intros [_ [=]]].
      * intros _. by destruct granted.
Qed.

Lemma checkPermission_reason_cause_witness :
  let res := {| allowed := false;
                reason := Some (str "No user context provided") |} in
  checkPermission Null (str "  ")
    (registry_of {| own := []; proto := ObjectPrototype |}) = Ok res
  ∧ reason res = Some (str "No user context provided").
Proof.
  intros res. split; [reflexivity|].
  apply (checkPermission_reason_cause Null (str "  ")
           (registry_of {| own := []; proto := ObjectPrototype |}) res);
    [reflexivity | by left].
Defined.

(** * Further properties of the registry *)

Lemma own_get_put {A} (props : list (jsstring * A)) key (v : A) k :
  own_get (own_put props key v) k
  = if decide (key = k) then Some v else own_get props k.
Proof.
  induction props as [|[k0 w] props IH]; simpl.
  - done.
  - destruct (decide (k0 = key)) as [->|Hne]; simpl.
    + by destruct (decide (key = k)).
    + destruct (decide (k0 = k)) as [->|Hne'].
      * by rewrite decide_False by done.
      * done.
Qed.

Lemma own_put_NoDup {A} (props : list (jsstring * A)) key (v : A) :
  NoDup props.*1 -> NoDup (own_put props key v).*1.
Proof.
  intros Hnd. destruct (decide (key ∈ props.*1)) as [Hin|Hnin].
  - by rewrite own_put_keys.
  - rewrite own_put_fresh by done. rewrite fmap_app. simpl.
    apply NoDup_app. split_and!; [done | | apply NoDup_singleton].
    intros x Hx ->%list_elem_of_singleton. done.
Qed.

(** What one assignment does to the backing object. *)
Lemma obj_set_Ok o key (elems : list jsstring) o' :
  obj_set o key elems = Ok o' ->
  (own o' = own_put (own o) key elems ∧ proto o' = proto o
   ∧ (has_own (own o) key = true ∨ key ≠ PROTO))
  ∨ (own o' = own o ∧ proto o' = FrozenArray elems ∧ key = PROTO).
Proof.
  unfold obj_set. destruct (has_own (own o) key) eqn:Hown.
  { intros [= <-]. left. simpl. auto. }
  destruct (decide (key = PROTO)) as [->|Hne].
  { intros [= <-]. right. simpl. auto. }
  destruct (proto o) as [|aelems] eqn:Hp.
  { intros [= <-]. left. simpl. auto. }
  destruct (array_own_get aelems key); [done|].
  intros [= <-]. left. simpl. auto.
Qed.

Lemma obj_set_Throw o key (elems : list jsstring) e :
  obj_set o key elems = Throw e -> ∃ aelems, proto o = FrozenArray aelems.
Proof.
  unfold obj_set. destruct (has_own (own o) key); [done|].
  destruct (decide (key = PROTO)); [done|].
  destruct (proto o) as [|aelems]; [done|]. by exists aelems.
Qed.

Lemma defineRoles_loop_NoDup (D : RoleDefinition) keys o o' :
  NoDup (own o).*1 -> defineRoles_loop D keys o = Ok o' -> NoDup (own o').*1.
Proof.
  revert o. induction keys as [|role keys IH]; intros o Hnd; simpl.
  - by intros [= <-].
  - destruct (mjoin (own_get D role)) as [elems|]; [|by apply IH].
    intros (o1 & Hset & Hloop)%bind_Ok. apply (IH o1); [|done].
    apply obj_set_Ok in Hset as [(-> & _ & _) | (-> & _ & _)]; [|done].
    by apply own_put_NoDup.
Qed.

(** [hasRole] and [getRoleNames] agree, and no name is listed twice,
    whatever definitions object the registry was built from. *)
Theorem defineRoles_hasRole_getRoleNames (D : RoleDefinition)
  (R : RoleRegistry) :
  defineRoles D = Ok R ->
  (∀ r, hasRole R r = true ↔ r ∈ getRoleNames R ())
  ∧ NoDup (getRoleNames R ()).
Proof.
  unfold defineRoles. intros (o & Hloop & [= <-])%bind_Ok. simpl. split.
  - intros r. apply has_own_true.
  - eapply defineRoles_loop_NoDup; [|exact Hloop]. constructor.
Qed.

Lemma defineRoles_hasRole_getRoleNames_witness :
  NoDup (getRoleNames
           (registry_of {| own := [(str "admin", [str "*"]);
                                   (str "viewer", [str "user.read"])];
                           proto := ObjectPrototype |}) ()).
Proof.
  apply (defineRoles_hasRole_getRoleNames
           [(str "admin", Some [str "*"]); (str "guest", None);
            (str "viewer", Some [str "user.read"])]).
  reflexivity.
Defined.

Lemma defineRoles_loop_own_defined (D : RoleDefinition) keys o o' :
  (∀ k v, own_get (own o) k = Some v -> own_get D k = Some (Some v)) ->
  defineRoles_loop D keys o = Ok o' ->
  ∀ k v, own_get (own o') k = Some v -> own_get D k = Some (Some v).
Proof.
  revert o. induction keys as [|role keys IH]; intros o Hinv; simpl.
  - by intros [= <-].
  - destruct (mjoin (own_get D role)) as [elems|] eqn:Hget; [|by apply IH].
    intros (o1 & Hset & Hloop)%bind_Ok. apply (IH o1); [|done].
    intros k v.
    apply obj_set_Ok in Hset as [(-> & _ & _) | (-> & _ & _)]; [|by apply Hinv].
    rewrite own_get_put. destruct (decide (role = k)) as [<-|_]; [|by apply Hinv].
    intros [= <-]. by destruct (own_get D role) as [[?|]|]; simplify_eq/=.
Qed.

(** Every role the registry reports is a defined entry of the definitions
    object, and reads back the permissions listed there: an entry whose
    value is [undefined], or a name that is not a key, is never a role. *)
Theorem defineRoles_known_role (D : RoleDefinition) (R : RoleRegistry)
  (r : jsstring) :
  defineRoles D = Ok R ->
  hasRole R r = true ->
  ∃ elems, own_get D r = Some (Some elems)
           ∧ getPermissions R r = VArray elems.
Proof.
  unfold defineRoles. intros (o & Hloop & [= <-])%bind_Ok. simpl.
  unfold has_own, obj_get.
  destruct (own_get (own o) r) as [elems|] eqn:Hget; [|done].
  intros _. exists elems. split; [|done].
  eapply defineRoles_loop_own_defined; [|exact Hloop|exact Hget]. done.
Qed.

Lemma defineRoles_known_role_witness :
  ∃ elems,
    own_get [(str "admin", Some [str "*"]); (str "guest", None)] (str "admin")
    = Some (Some elems)
    ∧ getPermissions
        (registry_of {| own := [(str "admin", [str "*"])];
                        proto := ObjectPrototype |}) (str "admin")
      = VArray elems.
Proof.
  apply (defineRoles_known_role
           [(str "admin", Some [str "*"]); (str "guest", None)]);
    reflexivity.
Defined.

Lemma defineRoles_loop_proto (D : RoleDefinition) keys o :
  proto o = ObjectPrototype
  ∨ (∃ elems, own_get D PROTO = Some (Some elems)) ->
  match defineRoles_loop D keys o with
  | Ok o' => proto o' = ObjectPrototype
             ∨ ∃ elems, own_get D PROTO = Some (Some elems)
  | Throw _ => ∃ elems, own_get D PROTO = Some (Some elems)
  end.
Proof.
  revert o. induction keys as [|role keys IH]; intros o Hinv; simpl; [done|].
  destruct (mjoin (own_get D role)) as [elems|] eqn:Hget; [|by apply IH].
  destruct (obj_set o role elems) as [o1|e] eqn:Hset; simpl.
  - apply IH.
    apply obj_set_Ok in Hset as [(_ & -> & _) | (_ & _ & ->)]; [done|].
    right. exists elems. by destruct (own_get D PROTO) as [[?|]|]; simplify_eq/=.
  - apply obj_set_Throw in Hset as [aelems Hp].
    destruct Hinv as [Hinv | Hinv]; [congruence | done].
Qed.

(** [defineRoles] throws only for a definitions object with a defined
    [__proto__] entry; for every other object it returns a registry. *)
Theorem defineRoles_throws_only_proto (D : RoleDefinition) :
  (∀ elems, own_get D PROTO ≠ Some (Some elems)) ->
  returns (defineRoles D).
Proof.
  intros Hno. unfold defineRoles.
  pose proof (defineRoles_loop_proto D D.*1
                {| own := []; proto := ObjectPrototype |}) as Hloop.
  destruct (defineRoles_loop D D.*1 _) as [o|e]; simpl.
  - by eexists.
  - destruct Hloop as [elems Helems]; [by left|]. by destruct (Hno elems).
Qed.

Lemma defineRoles_throws_only_proto_witness :
  returns (defineRoles [(str "constructor", Some [str "a"]);
                        (str "length", Some [str "b"]);
                        (str "0", None)]).
Proof.
  apply defineRoles_throws_only_proto. intros elems. by vm_compute.
Defined.

(** * Further properties of the store *)

Lemma defineRoles_loop_cells_kept (d fd : nat) keys (h : Heap.heap) obj
  (h' : Heap.heap) :
  Heap.backs h fd false obj ->
  Heap.defineRoles_loop d keys fd h = Ok h' ->
  Heap.cells_kept fd h h'.
Proof.
  revert h obj. induction keys as [|role keys IH]; intros h obj Hb; simpl.
  - intros [= <-] l c _ Hl. done.
  - destruct (Heap.get_slot h d role) as [|a]; [by apply (IH h obj)|].
    intros (elems & Hread & Hrest)%bind_Ok. simpl in Hrest.
    apply bind_Ok in Hrest as (h2 & Hset & Hloop).
    set (h1 := h ++ [Heap.CArray elems true]) in *.
    assert (Hb1 : Heap.backs h1 fd false obj) by by apply backs_app.
    assert (Hcopy : h1 !! length h = Some (Heap.CArray elems true)).
    { unfold h1. by rewrite lookup_app_r, Nat.sub_diag. }
    pose proof (set_property_refines h1 fd obj role (length h) elems Hb1 Hcopy)
      as Href.
    destruct (obj_set obj role elems) as [obj1|e]; [|congruence].
    destruct Href as (h2' & Hset' & Hb2 & Hkept).
    rewrite Hset in Hset'. injection Hset' as <-.
    pose proof (IH h2 obj1 Hb2 Hloop) as Hkept'.
    intros l c Hne Hl. apply Hkept'; [done|]. apply Hkept; [done|].
    by apply lookup_app_l_Some.
Qed.

(** [defineRoles] writes nothing the caller holds: the registry's object
    is a new cell, and every cell that existed before the call (the
    definitions object and its permission arrays among them) is the same
    after it. *)
Theorem defineRoles_keeps_caller_cells (h : Heap.heap) (d : nat)
  (h1 : Heap.heap) (fd : nat) :
  Heap.defineRoles h d = Ok (h1, fd) ->
  fd = length h ∧ ∀ l c, h !! l = Some c -> h1 !! l = Some c.
Proof.
  unfold Heap.defineRoles. simpl.
  intros (keys & _ & (h' & Hloop & (h'' & Hfreeze & [= <- <-])%bind_Ok)%bind_Ok)%bind_Ok.
  split; [done|]. intros l c Hl.
  assert (Hne : l ≠ length h) by (apply lookup_lt_Some in Hl; lia).
  pose proof (defineRoles_loop_cells_kept _ _ _ _ _ _ (backs_empty h) Hloop)
    as Hkept.
  assert (Hl' : h' !! l = Some c).
  { apply Hkept; [done|]. by apply lookup_app_l_Some. }
  unfold Heap.freeze in Hfreeze.
  destruct (h' !! length h) as [[elems fz|props hp fz]|]; [| |done];
    injection Hfreeze as <-; by rewrite list_lookup_insert_ne.
Qed.

Lemma defineRoles_keeps_caller_cells_witness :
  let h := [Heap.CArray [str "user.read"] false;
            Heap.CObject [(str "admin", Heap.SArray 0%nat)] Heap.PObject false] in
  let h1 := h ++ [Heap.CObject [(str "admin", Heap.SArray 3%nat)] Heap.PObject true;
                  Heap.CArray [str "user.read"] true] in
  Heap.defineRoles h 1%nat = Ok (h1, 2%nat)
  ∧ h1 !! 0%nat = Some (Heap.CArray [str "user.read"] false).
Proof.
  intros h h1.
  assert (Hdef : Heap.defineRoles h 1%nat = Ok (h1, 2%nat)) by reflexivity.
  split; [done|].
  by apply (proj2 (defineRoles_keeps_caller_cells h 1%nat h1 2%nat Hdef)).
Defined.


(** * The adapters *)

Lemma absent_user_denied nu p ps R :
  (∀ u, nu ≠ Present u) ->
  canUser nu p R = Ok false
  ∧ canUserAll nu ps R = Ok false
  ∧ canUserAny nu ps R = Ok false.
Proof.
  intros Habsent.
  assert (Hany : ∀ l, canUserAny_loop nu l R = Ok false).
  { intros l. destruct nu as [| |u]; [apply canUserAny_loop_no_user..|].
    by destruct (Habsent u). }
  destruct nu as [| |u]; [| |by destruct (Habsent u)].
  all: split; [done|]; unfold canUserAll, canUserAny.
  all: destruct ps as [|q ps]; [done|].
  all: change (length (q :: ps) =? 0)%nat with false; cbv iota.
  all: split; [done | apply Hany].
Qed.

Lemma blank_denied_any_user nu p R :
  is_blank p = true -> canUser nu p R = Ok false.
Proof.
  intros Hblank. destruct nu as [| |u]; [done..|].
  by rewrite canUser_present, Hblank.
Qed.

(** Express: a request that carries no user is turned away by all three
    middlewares, with the configured status and message (403 and
    "Forbidden" by default); [next] is not called and nothing is thrown,
    whatever the permission, the list and the registry. *)
Theorem express_anonymous_denied (p : jsstring) (ps : list jsstring)
  (R : RoleRegistry) (sc : option Z) (msg : option jsstring) :
  let options := Some {| Express.statusCode := sc; Express.message := msg;
                         Express.getUser := None |} in
  let anonymous := {| Express.user := None |} in
  let denial := [Express.res_status (default 403%Z sc);
                 Express.res_json (default (str "Forbidden") msg)] in
  Express.requirePermission p R options anonymous = Ok denial
  ∧ Express.requireAllPermissions ps R options anonymous = Ok denial
  ∧ Express.requireAnyPermission ps R options anonymous = Ok denial
  ∧ Express.requirePermission p R None anonymous
    = Ok [Express.res_status 403%Z; Express.res_json (str "Forbidden")]
  ∧ Express.requireAllPermissions ps R None anonymous
    = Ok [Express.res_status 403%Z; Express.res_json (str "Forbidden")]
  ∧ Express.requireAnyPermission ps R None anonymous
    = Ok [Express.res_status 403%Z; Express.res_json (str "Forbidden")].
Proof.
  intros options anonymous denial.
  destruct (absent_user_denied Undefined p ps R) as (Hone & Hall & Hany);
    [done|].
  unfold Express.requirePermission, Express.requireAllPermissions,
    Express.requireAnyPermission. simpl.
  rewrite Hall, Hany. by split_and!.
Qed.

(** Express: a middleware built over an empty permission list turns every
    request away, whoever the user is and whatever the registry holds. *)
Theorem express_empty_list_denied (R : RoleRegistry)
  (options : option Express.PermissionMiddlewareOptions)
  (req : Express.ExpressRequest) :
  let opts := Express.spread_options (default Express.no_options options) in
  Express.requireAllPermissions [] R options req = Ok (Express.deny opts)
  ∧ Express.requireAnyPermission [] R options req = Ok (Express.deny opts).
Proof. done. Qed.

(** Express: a middleware built over a blank permission turns every
    request away, even for a user who holds the global wildcard. *)
Theorem express_blank_permission_denied (p : jsstring) (R : RoleRegistry)
  (options : option Express.PermissionMiddlewareOptions)
  (req : Express.ExpressRequest) :
  Forall (fun c => is_whitespace c = true) p ->
  Express.requirePermission p R options req
  = Ok (Express.deny (Express.spread_options (default Express.no_options options))).
Proof.
  intros Hblank%is_blank_iff. unfold Express.requirePermission.
  by rewrite blank_denied_any_user.
Qed.

Lemma express_blank_permission_denied_witness :
  Express.requirePermission (str " ")
    (registry_of {| own := []; proto := ObjectPrototype |}) None
    {| Express.user := Some (user_of None (Some [str "*"])) |}
  = Ok [Express.res_status 403%Z; Express.res_json (str "Forbidden")].
Proof.
  apply (express_blank_permission_denied (str " ")
           (registry_of {| own := []; proto := ObjectPrototype |}) None
           {| Express.user := Some (user_of None (Some [str "*"])) |}).
  repeat constructor.
Defined.

(** Next.js: for a user that is null or undefined the three check
    functions return [allowed: false] with [user: null], for every
    permission, list and registry. *)
Theorem next_check_anonymous (p : jsstring) (ps : list jsstring)
  (R : RoleRegistry) :
  let denied := Ok {| NextJs.allowed := false; NextJs.user := None |} in
  NextJs.checkNextPermission Null p R = denied
  ∧ NextJs.checkNextPermission Undefined p R = denied
  ∧ NextJs.checkNextPermissionAll Null ps R = denied
  ∧ NextJs.checkNextPermissionAll Undefined ps R = denied
  ∧ NextJs.checkNextPermissionAny Null ps R = denied
  ∧ NextJs.checkNextPermissionAny Undefined ps R = denied.
Proof.
  intros denied.
  destruct (absent_user_denied Null p ps R) as (_ & Hall & Hany); [done|].
  destruct (absent_user_denied Undefined p ps R) as (_ & Hall' & Hany'); [done|].
  unfold NextJs.checkNextPermission, NextJs.checkNextPermissionAll,
    NextJs.checkNextPermissionAny.
  rewrite Hall, Hall', Hany, Hany'. by split_and!.
Qed.



(** Next.js: what a wrapper returns is the JSON error or the handler's
    response, and it is the handler's response only for a user that
    [getUser] gave and that the engine function granted. *)
Theorem next_handler_only_when_granted {T Response : Type}
  (Response_json : jsstring -> Z -> Response)
  (p : jsstring) (ps : list jsstring) (R : RoleRegistry)
  (options : NextJs.NextPermissionOptions)
  (handler : T -> UserContext -> Response) (request : T) (resp : Response) :
  let denial := Response_json (default (str "Forbidden") (NextJs.message options))
                              (default 403%Z (NextJs.statusCode options)) in
  (NextJs.withPermission Response_json p R options handler request = Ok resp ->
   resp = denial
   ∨ ∃ u, NextJs.getUser options request = Present u
          ∧ canUser (Present u) p R = Ok true
          ∧ resp = handler request u)
  ∧ (NextJs.withAllPermissions Response_json ps R options handler request
     = Ok resp ->
     resp = denial
     ∨ ∃ u, NextJs.getUser options request = Present u
            ∧ canUserAll (Present u) ps R = Ok true
            ∧ resp = handler request u)
  ∧ (NextJs.withAnyPermission Response_json ps R options handler request
     = Ok resp ->
     resp = denial
     ∨ ∃ u, NextJs.getUser options request = Present u
            ∧ canUserAny (Present u) ps R = Ok true
            ∧ resp = handler request u).
Proof.
  intros denial.
  unfold NextJs.withPermission, NextJs.withAllPermissions,
    NextJs.withAnyPermission.
  destruct (NextJs.getUser options request) as [| |u] eqn:Huser.
  - split_and!; intros [= <-]; by left.
  - split_and!; intros (granted & _ & H)%bind_Ok; left;
      destruct granted; simpl in H; by injection H as <-.
  - split_and!; intros (granted & Hgranted & H)%bind_Ok;
      (destruct granted; simpl in H; injection H as <-;
       [right; by exists u | by left]).
Qed.

Lemma next_handler_only_when_granted_witness :
  (str "ok", 200%Z) = (str "Forbidden", 403%Z)
  ∨ ∃ u, Present (user_of (Some [str "admin"]) None) = Present u
         ∧ canUser (Present u) (str "admin.access")
             (registry_of {| own := [(str "admin", [str "admin.*"])];
                             proto := ObjectPrototype |}) = Ok true
         ∧ (str "ok", 200%Z) = (str "ok", 200%Z).
Proof.
  apply (proj1 (next_handler_only_when_granted (T := unit)
                  (fun error status => (error, status))
                  (str "admin.access") []
                  (registry_of {| own := [(str "admin", [str "admin.*"])];
                                  proto := ObjectPrototype |})
                  {| NextJs.getUser := fun _ => Present (user_of (Some [str "admin"]) None);
                     NextJs.statusCode := None; NextJs.message := None |}
                  (fun _ _ => (str "ok", 200%Z)) () (str "ok", 200%Z))).
  by vm_compute.
Defined.

(** React: outside any provider the hooks answer false, [Can] renders its
    fallback ([null] when none is given) and [Cannot] renders its
    children, whatever permissions are asked. *)
Theorem react_without_provider {element : Type} (p : jsstring)
  (ps : list jsstring) (props : React.CanProps (element := element))
  (props' : React.CannotProps (element := element)) :
  React.useCan None p = Ok false
  ∧ React.useCanAll None ps = Ok false
  ∧ React.useCanAny None ps = Ok false
  ∧ React.useUser None = Null
  ∧ React.Can None props = Ok (default None (React.fallback props))
  ∧ React.Cannot None props' = Ok (React.cannot_children props').
Proof.
  split_and!; try done.
  - unfold React.Can.
    destruct (React.permission props); [done|].
    destruct (React.permissions props) as [l|]; [|done].
    destruct (0 <? length l)%nat; [|done]. by destruct (default false _).
  - unfold React.Cannot.
    destruct (React.cannot_permission props'); [done|].
    destruct (React.cannot_permissions props') as [l|]; [|done].
    destruct (0 <? length l)%nat; [|done]. by destruct (default false _).
Qed.

(** React: [Can] and [Cannot] are complements. Given the same permission
    props and the same context, either both throw, or there is one
    decision by which [Can] renders its children and [Cannot] renders
    nothing, or [Can] renders its fallback and [Cannot] its children;
    with no permission given (or an empty list) the decision is a
    denial. *)
Theorem react_can_cannot_complement {element : Type}
  (provided : option React.PermissionContextValue)
  (props : React.CanProps (element := element)) :
  let props' := {| React.cannot_permission := React.permission props;
                   React.cannot_permissions := React.permissions props;
                   React.cannot_anyOf := React.anyOf props;
                   React.cannot_children := React.children props |} in
  (∃ e, React.Can provided props = Throw e
        ∧ React.Cannot provided props' = Throw e)
  ∨ ∃ granted : bool,
      React.Can provided props
      = Ok (if granted then React.children props
            else default None (React.fallback props))
      ∧ React.Cannot provided props'
        = Ok (if granted then None else React.children props)
      ∧ (React.permission props = None ->
         default [] (React.permissions props) = [] -> granted = false).
Proof.
  intros props'. unfold React.Can, React.Cannot, props'. simpl.
  destruct (React.permission props) as [single|].
  - destruct (React.useCan provided single) as [granted|e]; simpl.
    + right. by exists granted.
    + left. by exists e.
  - destruct (React.permissions props) as [[|q l]|]; simpl.
    + right. by exists false.
    + destruct (if default false (React.anyOf props)
                then React.useCanAny provided (q :: l)
                else React.useCanAll provided (q :: l)) as [granted|e]; simpl.
      * right. by exists granted.
      * left. by exists e.
    + right. by exists false.
Qed.

(** React: under a provider whose user is null or undefined, [Can]
    renders its fallback and [Cannot] its children for every props and
    every registry; nothing is thrown. *)
Theorem react_null_user {element : Type} (R : RoleRegistry)
  (nu : nullable UserContext)
  (props : React.CanProps (element := element))
  (props' : React.CannotProps (element := element)) :
  (∀ u, nu ≠ Present u) ->
  React.Can (Some (React.PermissionProvider nu R)) props
  = Ok (default None (React.fallback props))
  ∧ React.Cannot (Some (React.PermissionProvider nu R)) props'
    = Ok (React.cannot_children props').
Proof.
  intros Habsent.
  assert (Hall : ∀ p ps, canUser nu p R = Ok false
                         ∧ canUserAll nu ps R = Ok false
                         ∧ canUserAny nu ps R = Ok false).
  { intros p ps. by apply absent_user_denied. }
  split.
  - unfold React.Can, React.useCan, React.useCanAll, React.useCanAny. simpl.
    destruct (React.permission props) as [single|].
    { by rewrite (proj1 (Hall single [])). }
    destruct (React.permissions props) as [l|]; [|done].
    destruct (0 <? length l)%nat; [|done].
    destruct (default false _).
    + by rewrite (proj2 (proj2 (Hall [] l))).
    + by rewrite (proj1 (proj2 (Hall [] l))).
  - unfold React.Cannot, React.useCan, React.useCanAll, React.useCanAny. simpl.
    destruct (React.cannot_permission props') as [single|].
    { by rewrite (proj1 (Hall single [])). }
    destruct (React.cannot_permissions props') as [l|]; [|done].
    destruct (0 <? length l)%nat; [|done].
    destruct (default false _).
    + by rewrite (proj2 (proj2 (Hall [] l))).
    + by rewrite (proj1 (proj2 (Hall [] l))).
Qed.

Lemma react_null_user_witness :
  React.Can (element := nat)
    (Some (React.PermissionProvider Null
             (registry_of {| own := [(str "admin", [str "*"])];
                             proto := ObjectPrototype |})))
    {| React.permission := Some (str "user.read"); React.permissions := None;
       React.anyOf := None; React.children := Some 1%nat;
       React.fallback := Some (Some 2%nat) |}
  = Ok (Some 2%nat).
Proof.
  destruct (react_null_user (element := nat)
              (registry_of {| own := [(str "admin", [str "*"])];
                              proto := ObjectPrototype |}) Null
              {| React.permission := Some (str "user.read");
                 React.permissions := None; React.anyOf := None;
                 React.children := Some 1%nat;
                 React.fallback := Some (Some 2%nat) |}
              {| React.cannot_permission := None;
                 React.cannot_permissions := None;
                 React.cannot_anyOf := None;
                 React.cannot_children := None |}) as [H _]; [done|].
  exact H.
Defined.

(** React: the registry of the default context answers every role with
    the empty array. Against it [canUser] returns for every user, role
    names play no part, and the answer is the one for the same user
    without roles. *)
Theorem react_default_registry (u : UserContext) (p : jsstring) :
  returns (canUser (Present u) p (React.registry React.defaultContextValue))
  ∧ canUser (Present u) p (React.registry React.defaultContextValue)
    = canUser (Present (user_of None (permissions u))) p
              (React.registry React.defaultContextValue).
Proof.
  set (R := React.registry React.defaultContextValue).
  assert (Hiter : ∀ r, returns (iterate (getPermissions R r))) by by eexists.
  split.
  - apply canUser_returns. intros u0 r _ _. apply Hiter.
  - rewrite !canUser_present. destruct (is_blank p); [done|].
    destruct (proj2 (collectUserPermissions_returns u R)) as [S HS];
      [by intros r _|].
    destruct (proj2 (collectUserPermissions_returns
                       (user_of None (permissions u)) R)) as [S' HS'];
      [by intros r _|].
    rewrite HS, HS'. simpl. f_equal. f_equal. apply set_eq. intros x.
    rewrite (collectUserPermissions_elem _ _ _ HS x),
            (collectUserPermissions_elem _ _ _ HS' x). simpl.
    split.
    + intros [? | (r & l & _ & [= <-] & ?%elem_of_nil)]; [by left | done].
    + intros [? | (r & l & ?%elem_of_nil & _)]; [by left | done].
Qed.
